(** * pandaspark.prdd: a dataframe-aware wrapper around a distributed collection

    This development embeds [src/pandaspark/prdd.py] (class [PRDD]) and
    states its specification as theorems.

    The class is glue between two collaborators that are not part of the
    repository: the distributed runtime (pyspark's RDD) and the in-memory
    tabular engine (pandas).  They are modelled in [Module Pandas] and
    [Module Spark] below, as far as the four methods of [PRDD] use them.
    The statistics accumulator [ColumnStatCounters] belongs to the
    repository but its file is not among the sources; [Module Stats] models
    it from the specification. *)

From Stdlib Require Import ZArith QArith Qreals Reals Lra Lia.
From stdpp Require Import base tactics option list gmap strings fin_maps.

#[local] Open Scope string_scope.
#[local] Open Scope Z_scope.
#[local] Open Scope list_scope.
#[local] Open Scope stdpp_scope.

(** ** Python exceptions and fallible results *)

(** The exceptions that the modelled calls can raise. *)
Inductive exn : Type :=
| TypeError
| KeyError
| AttributeError
| ValueError.

#[global] Instance exn_eq_dec : EqDecision exn.
Proof. solve_decision. Defined.

(** A call either returns a value or raises. *)
Inductive result (A : Type) : Type :=
| Ok (a : A)
| Err (e : exn).
Arguments Ok {A} a.
Arguments Err {A} e.

#[global] Instance result_ret : MRet result := @Ok.
#[global] Instance result_bind : MBind result :=
  λ A B k r, match r with Ok a => k a | Err e => Err e end.
#[global] Instance result_fmap : FMap result :=
  λ A B g r, match r with Ok a => Ok (g a) | Err e => Err e end.

Definition is_Ok {A} (r : result A) : Prop := ∃ a, r = Ok a.
Definition is_Err {A} (r : result A) : Prop := ∃ e, r = Err e.

(** Two fallible computations agree up to [R]: both raise, or both return
    and the values are related. *)
Definition agree {A B} (R : A → B → Prop) (x : result A) (y : result B) : Prop :=
  match x, y with
  | Ok a, Ok b => R a b
  | Err _, Err _ => True
  | _, _ => False
  end.

(** ** The tabular engine (pandas), as far as [PRDD] uses it *)

Module Pandas.

(** The content of one cell: a string, a Python integer, a float or the
    missing value (a float too).  A float is given by a mantissa and an
    exponent: [CFloat m e] is [m * 2 ^ e], as every finite double is. *)
Inductive cell : Type :=
| CStr (s : string)
| CInt (n : Z)
| CFloat (m e : Z)
| CNaN.

#[global] Instance cell_eq_dec : EqDecision cell.
Proof. solve_decision. Defined.

(** The integer value of the double nearest to the integer [n] (53 bits
    of significand, ties to even). *)
Definition to_float (n : Z) : Z :=
  let a := Z.abs n in
  let e := Z.log2 a - 52 in
  if e <=? 0 then n
  else
    let q := Z.shiftr a e in
    let r := a mod 2 ^ e in
    let half := 2 ^ (e - 1) in
    let q' := if (half <? r) || ((r =? half) && Z.odd q) then q + 1 else q in
    Z.sgn n * (q' * 2 ^ e).

(** An integer of a column that becomes [float64]. *)
Definition upcast (c : cell) : cell :=
  match c with CInt n => CFloat (to_float n) 0 | _ => c end.

(** How pandas holds a column, from its cells: as [int64] when they are
    all integers of 64 bits, as [float64] when they are all floats or
    missing, and as Python objects otherwise: because of a string or of an
    integer that is too large ([KObject]), or because integers stand beside
    floats or missing values ([KMixed]).  The model does not record the
    type of a column apart from its cells: it has no column of integers of
    64 bits held as objects, nor one of floats held as objects. *)
Inductive kind : Type := KInt | KFloat | KMixed | KObject.

#[global] Instance kind_eq_dec : EqDecision kind.
Proof. solve_decision. Defined.

Definition is_int64 (c : cell) : bool :=
  match c with CInt n => (- 2 ^ 63 <=? n) && (n <? 2 ^ 63) | _ => false end.

Definition is_float (c : cell) : bool :=
  match c with CFloat _ _ | CNaN => true | _ => false end.

Definition is_object (c : cell) : bool :=
  match c with CStr _ => true | CInt _ => negb (is_int64 c) | _ => false end.

Definition kind_of (col : list cell) : kind :=
  if existsb is_object col then KObject
  else if forallb is_int64 col then KInt
  else if forallb is_float col then KFloat
  else KMixed.

(** A row is its index label and its cells, in the order of the columns. *)
Definition row : Type := Z * list cell.

Record DataFrame : Type := mkFrame {
  columns : list string;
  rows : list row
}.

Record Series : Type := mkSeries {
  name : option string;
  values : list (Z * cell)
}.

#[global] Instance DataFrame_eq_dec : EqDecision DataFrame.
Proof. solve_decision. Defined.
#[global] Instance Series_eq_dec : EqDecision Series.
Proof. solve_decision. Defined.

(** The cell of row [r] under the first column labelled [k]; [CNaN]
    when the row has no such cell. *)
Fixpoint cell_at (cols : list string) (r : list cell) (k : string) : cell :=
  match cols, r with
  | c :: cols', x :: r' => if decide (c = k) then x else cell_at cols' r' k
  | _, _ => CNaN
  end.

(** A row relaid on the columns [new]; cells of columns it did not have
    are missing. *)
Definition reindex (old new : list string) (r : row) : row :=
  (r.1, cell_at old r.2 <$> new).

(** The cells of the [j]-th column. *)
Definition col (j : nat) (rs : list row) : list cell :=
  (λ r : row, default CNaN (r.2 !! j)) <$> rs.

(** The cells of a row, those at the flagged positions as floats. *)
Fixpoint upcast_where (flags : list bool) (r : list cell) : list cell :=
  match flags, r with
  | b :: flags', x :: r' => (if b then upcast x else x) :: upcast_where flags' r'
  | _, _ => r
  end.

(** The rows with the columns that [flag] names, among the first
    [width], re-typed as [float64]. *)
Definition retype (flag : nat → bool) (width : nat) (rs : list row) : list row :=
  (λ r : row, (r.1, upcast_where (flag <$> seq 0 width) r.2)) <$> rs.

(** Whether a column of cells [xs] followed by a column of cells [ys]
    is re-typed: an [int64] column and a [float64] column give a
    [float64] column; two columns of the same type keep it; with a column
    of objects on either side the cells are kept as they are.  A column
    without cells has no say. *)
Definition needs_upcast (xs ys : list cell) : bool :=
  match kind_of xs, kind_of ys with
  | KInt, KFloat | KFloat, KInt => true
  | _, _ => false
  end.

(** The rows [ra] followed by the rows [rb], under the columns [cols]. *)
Definition stack (cols : list string) (ra rb : list row) : DataFrame :=
  mkFrame cols (retype (λ j, needs_upcast (col j ra) (col j rb)) (length cols) (ra ++ rb)).

(** [a.append(b)]: the rows of [a] followed by the rows of [b].  With
    the same columns on both sides the rows are stacked as they are.
    Otherwise the result has the columns of [a] followed by the new columns
    of [b], every row is relaid on them, a cell it did not have being
    missing; this needs labels that are not repeated, and raises with a
    repeated one.  (pandas may put the labels in another order in this
    case; the statements below that cover it do not depend on the order
    of the columns.) *)
Definition df_append (a b : DataFrame) : result DataFrame :=
  if decide (columns a = columns b) then
    Ok (stack (columns a) (rows a) (rows b))
  else if decide (NoDup (columns a) ∧ NoDup (columns b)) then
    let cols := columns a ++ filter (λ c, c ∉ columns a) (columns b) in
    Ok (stack cols (reindex (columns a) cols <$> rows a)
                   (reindex (columns b) cols <$> rows b))
  else Err ValueError.

(** The values [xs] followed by the values [ys], re-typed as the columns
    of frames are. *)
Definition append_values (xs ys : list (Z * cell)) : list (Z * cell) :=
  if needs_upcast (snd <$> xs) (snd <$> ys)
  then (λ v : Z * cell, (v.1, upcast v.2)) <$> (xs ++ ys)
  else xs ++ ys.

(** [s.append(t)] on series: the values of [s] followed by those of
    [t]; the name is kept when both have the same one. *)
Definition series_append (s t : Series) : Series :=
  mkSeries (if decide (name s = name t) then name s else None)
           (append_values (values s) (values t)).

(** The cells under the first column labelled [key], with the index. *)
Definition column_of (key : string) (d : DataFrame) : list (Z * cell) :=
  (λ r : row, (r.1, cell_at (columns d) r.2 key)) <$> rows d.

(** The cells of a row under every column labelled [key]. *)
Fixpoint cells_at (cols : list string) (r : list cell) (key : string) : list cell :=
  match cols, r with
  | c :: cols', x :: r' =>
      if decide (c = key) then x :: cells_at cols' r' key else cells_at cols' r' key
  | _, _ => []
  end.

(** What [d[key]] is: a series when one column has the label, a frame
    when several have it. *)
Inductive selection : Type :=
| OneColumn (s : Series)
| ManyColumns (d : DataFrame).

(** [d[key]]: [KeyError] when the frame has no column labelled [key]. *)
Definition df_getitem (key : string) (d : DataFrame) : result selection :=
  match filter (λ c, c = key) (columns d) with
  | [] => Err KeyError
  | [_] => Ok (OneColumn (mkSeries (Some key) (column_of key d)))
  | labels =>
      Ok (ManyColumns
            (mkFrame labels ((λ r : row, (r.1, cells_at (columns d) r.2 key)) <$> rows d)))
  end.

(** [d.applymap(f)]: [f] applied to every cell, the first exception
    raised by [f] aborting the call; then every column is typed anew from
    the cells it has got, a column of integers beside floats or missing
    values becoming [float64]. *)
Definition row_applymap (f : cell → result cell) (r : row) : result row :=
  cs ← mapM f r.2; mret (r.1, cs).

Definition map_cells (f : cell → result cell) (d : DataFrame) : result DataFrame :=
  rs ← mapM (row_applymap f) (rows d); mret (mkFrame (columns d) rs).

Definition infer_types (d : DataFrame) : DataFrame :=
  mkFrame (columns d)
          (retype (λ j, bool_decide (kind_of (col j (rows d)) = KMixed))
                  (length (columns d)) (rows d)).

Definition df_applymap (f : cell → result cell) (d : DataFrame) : result DataFrame :=
  infer_types <$> map_cells f d.

(** The direct concatenation of a sequence of frames, first to last
    ([pandas.concat], one frame after the other); there is no
    concatenation of no frames. *)
Definition df_concat (ds : list DataFrame) : result DataFrame :=
  match ds with
  | [] => Err ValueError
  | d :: ds' => foldl (λ acc x, a ← acc; df_append a x) (Ok d) ds'
  end.

(** Equality of frames and of series up to the order of the rows. *)
Definition frame_equiv (a b : DataFrame) : Prop :=
  columns a = columns b ∧ rows a ≡ₚ rows b.

Definition series_equiv (s t : Series) : Prop :=
  name s = name t ∧ values s ≡ₚ values t.

(** Equality of frames up to the order of the rows and of the columns:
    the same labels, and the same rows once relaid on the same order of
    the labels. *)
Definition table_equiv (a b : DataFrame) : Prop :=
  columns a ≡ₚ columns b ∧
  reindex (columns a) (columns b) <$> rows a ≡ₚ rows b.

End Pandas.
Export Pandas.

(** ** The statistics accumulator *)

Module Stats.

(** Modelled from the spec: the per-column running aggregate held by
    [pandaspark.col_stat_counters.ColumnStatCounters], whose file is not
    among the sources.  The specification describes "a per-column running
    aggregate (count, mean, standard deviation, max, min)" with a
    "count/sum-based mean and variance combination": the state is the
    count, the sum and the sum of squares of the values seen, and their
    largest and smallest (none before the first value).  Values are
    integers and the arithmetic is exact. *)
Record StatCounter : Type := mkCounter {
  sc_count : Z;
  sc_sum : Z;
  sc_sumsq : Z;
  sc_max : option Z;
  sc_min : option Z
}.

#[global] Instance StatCounter_eq_dec : EqDecision StatCounter.
Proof. solve_decision. Defined.

Definition counter_empty : StatCounter := mkCounter 0 0 0 None None.

(** One more value. *)
Definition counter_add (c : StatCounter) (v : Z) : StatCounter :=
  mkCounter (sc_count c + 1) (sc_sum c + v) (sc_sumsq c + v * v)
            (Some (from_option (Z.max v) v (sc_max c)))
            (Some (from_option (Z.min v) v (sc_min c))).

(** The aggregate of two disjoint batches from their aggregates. *)
Definition counter_merge (a b : StatCounter) : StatCounter :=
  mkCounter (sc_count a + sc_count b) (sc_sum a + sc_sum b)
            (sc_sumsq a + sc_sumsq b)
            (union_with (λ x y, Some (Z.max x y)) (sc_max a) (sc_max b))
            (union_with (λ x y, Some (Z.min x y)) (sc_min a) (sc_min b)).

Definition counter_of (vs : list Z) : StatCounter :=
  foldl counter_add counter_empty vs.

(** What a counter reports. *)
Definition count (c : StatCounter) : Z := sc_count c.
Definition mean (c : StatCounter) : Q :=
  (inject_Z (sc_sum c) / inject_Z (sc_count c))%Q.
Definition variance (c : StatCounter) : Q :=
  (inject_Z (sc_sumsq c) / inject_Z (sc_count c) - mean c * mean c)%Q.
Definition stdev (c : StatCounter) : R := sqrt (Q2R (variance c)).
Definition max_value (c : StatCounter) : option Z := sc_max c.
Definition min_value (c : StatCounter) : option Z := sc_min c.

End Stats.
Export Stats.

(** ** The objects held by a distributed collection *)

(** Python is dynamically typed: an RDD holds any objects.  The ones the
    methods of [PRDD] meet are frames, series and statistics accumulators
    (one counter per column label); [PyInt] stands for the objects that are
    none of them. *)
Inductive pyobj : Type :=
| PyFrame (d : DataFrame)
| PySeries (s : Series)
| PyStats (c : gmap string StatCounter)
| PyInt (n : Z).

#[global] Instance pyobj_eq_dec : EqDecision pyobj.
Proof. solve_decision. Defined.

(** [data.applymap(f)] *)
Definition py_applymap (f : cell → result cell) (data : pyobj) : result pyobj :=
  match data with
  | PyFrame d => PyFrame <$> df_applymap f d
  | _ => Err AttributeError
  end.

(** [x[key]] for a column label [key] *)
Definition py_getitem (key : string) (x : pyobj) : result pyobj :=
  match x with
  | PyFrame d =>
      sel ← df_getitem key d;
      mret (match sel with OneColumn s => PySeries s | ManyColumns d' => PyFrame d' end)
  | PySeries _ => Err KeyError
  | PyStats _ | PyInt _ => Err TypeError
  end.

(** [frame_a.append(frame_b)] *)
Definition py_append (frame_a frame_b : pyobj) : result pyobj :=
  match frame_a, frame_b with
  | PyFrame a, PyFrame b => PyFrame <$> df_append a b
  | PySeries s, PySeries t => Ok (PySeries (series_append s t))
  | (PyFrame _ | PySeries _), _ => Err TypeError
  | (PyStats _ | PyInt _), _ => Err AttributeError
  end.

Module ColumnStatCounters.

(** The integer values of column [c] of a frame. *)
Definition column_values (c : string) (d : DataFrame) : result (list Z) :=
  sel ← df_getitem c d;
  match sel with
  | OneColumn s =>
      mapM (λ v : Z * cell, match v.2 with CInt n => Ok n | _ => Err TypeError end)
           (values s)
  | ManyColumns _ => Err TypeError
  end.

Definition as_frame (x : pyobj) : result DataFrame :=
  match x with PyFrame d => Ok d | _ => Err TypeError end.

(** The counter of column [c] over a sequence of frames. *)
Definition column_counter (ds : list DataFrame) (c : string) : result StatCounter :=
  vss ← mapM (column_values c) ds; mret (counter_of (concat vss)).

(** Modelled from the spec: the constructor
    [ColumnStatCounters(dataframes, columns)] of the absent file
    [pandaspark/col_stat_counters.py].  It "builds one per-partition
    accumulator over the tabular blocks in that partition restricted to
    columns" and "fails if columns is empty or references a label absent
    from some partition's blocks". *)
Definition new (dataframes : list pyobj) (columns : list string)
  : result (gmap string StatCounter) :=
  if decide (columns = []) then Err ValueError
  else
    ds ← mapM as_frame dataframes;
    cs ← mapM (λ c, pair c <$> column_counter ds c) columns;
    mret (list_to_map cs).

(** Modelled from the spec: [sc1.merge_stats(sc2)] of the absent file,
    "the accumulator's merge operation": column by column,
    [counter_merge]. *)
Definition merge_stats (sc1 sc2 : gmap string StatCounter) : gmap string StatCounter :=
  union_with (λ x y, Some (counter_merge x y)) sc1 sc2.

End ColumnStatCounters.

(** ** The distributed runtime (pyspark), as far as [PRDD] uses it *)

Module Spark.

(** An RDD is a handle on a lazy computation: either source data laid out
    in partitions, or a function to run over every partition of a parent
    RDD.  Nothing is computed when a handle is built. *)
Inductive RDD : Type :=
| ParallelCollection (partitions : list (list pyobj))
| PipelinedRDD (prev : RDD) (func : list pyobj → result (list pyobj))
               (preservesPartitioning : bool).

(** What a job computes for the handle: the content of every partition,
    or the first exception raised on the way. *)
Fixpoint compute (rdd : RDD) : result (list (list pyobj)) :=
  match rdd with
  | ParallelCollection partitions => Ok partitions
  | PipelinedRDD prev func _ => parts ← compute prev; mapM func parts
  end.

(** [rdd.mapPartitions(f)] *)
Definition mapPartitions (f : list pyobj → result (list pyobj)) (rdd : RDD) : RDD :=
  PipelinedRDD rdd f false.

(** [rdd.map(f, **kwargs)].  The only keyword [map] has is
    [preservesPartitioning]; the call raises [TypeError] on any other. *)
Definition map (f : pyobj → result pyobj) (kwargs : gmap string bool) (rdd : RDD)
  : result RDD :=
  if decide (dom kwargs ⊆ ({[ "preservesPartitioning" ]} : gset string)) then
    Ok (PipelinedRDD rdd (mapM f)
          (default false (kwargs !! "preservesPartitioning")))
  else Err TypeError.

(** [reduce] asks for a commutative and associative operator, and the
    order in which it combines the elements is the runtime's: from the
    sizes of the partitions it decides on a sequence of steps [(i, j)],
    each replacing the [i]-th of the values still to combine by [f] of
    it and the [j]-th, which is removed.  The driver then folds what is
    left, first to last.  Every sequence of steps is an order of
    reduction: every element is used once. *)
Definition schedule : Type := list nat → list (nat * nat).

(** The steps of a schedule, one after the other.  A step that names a
    position twice, or one that is not there, does nothing. *)

Fixpoint combine {A} (f : A → A → result A) (steps : list (nat * nat))
         (work : list A) : result (list A) :=
  match steps with
  | [] => Ok work
  | (i, j) :: steps' =>
      match work !! i, work !! j with
      | Some x, Some y =>
          if decide (i = j) then combine f steps' work
          else z ← f x y; combine f steps' (delete j (<[i := z]> work))
      | _, _ => combine f steps' work
      end
  end.

(** Python's [reduce(f, vals)] without an initial value. *)
Definition reduce_list {A} (f : A → A → result A) (vals : list A) : result A :=
  match vals with
  | [] => Err TypeError
  | v :: vals' => foldl (λ acc x, a ← acc; f a x) (Ok v) vals'
  end.

(** [rdd.reduce(f)] under the runtime's schedule [sched]. *)
Definition reduce (sched : schedule) (f : pyobj → pyobj → result pyobj) (rdd : RDD)
  : result pyobj :=
  parts ← compute rdd;
  vals ← combine f (sched (length <$> parts)) (concat parts);
  reduce_list f vals.

(** The schedule that combines nothing ahead of the driver: the elements
    are folded in the order of the collection. *)
Definition in_order : schedule := λ _, [].

(** Steps that each combine a value with its right neighbour, the left
    one first: the elements stay in the order of the collection, however
    they are grouped.  A fold over every partition followed by the
    driver's fold over the partitions is of this kind. *)
Definition adjacent (steps : list (nat * nat)) : Prop :=
  Forall (λ s : nat * nat, s.2 = S s.1) steps.

Definition order_preserving (sched : schedule) : Prop :=
  ∀ sizes, adjacent (sched sizes).

(** The schedule of a runtime that folds every partition from its first
    element on, [reduce(f, iterator)], before the driver folds the
    results of the partitions: the first two of the values of a partition
    are combined until one is left, which stays at the position [p] of
    the partition among the results. *)
Fixpoint partition_steps (p : nat) (sizes : list nat) : list (nat * nat) :=
  match sizes with
  | [] => []
  | 0%nat :: sizes' => partition_steps p sizes'
  | S n :: sizes' => replicate n (p, S p) ++ partition_steps (S p) sizes'
  end.

Definition partitions_then_driver : schedule := partition_steps 0.

(** The schedule of a runtime that accumulates the elements of a
    partition by [acc = f(obj, acc)], the newer element on the left, as
    the [reduce] of the first releases of pyspark does, before the driver
    folds the results of the partitions. *)
Fixpoint accumulator_steps (p : nat) (sizes : list nat) : list (nat * nat) :=
  match sizes with
  | [] => []
  | 0%nat :: sizes' => accumulator_steps p sizes'
  | S n :: sizes' => replicate n (S p, p) ++ accumulator_steps (S p) sizes'
  end.

Definition accumulate_then_driver : schedule := accumulator_steps 0.

End Spark.

(** ** The class [PRDD] *)

Module PRDD.

Import Spark.

(** References to instances. *)
Definition ref : Type := positive.

(** The class of an instance: [PRDD] itself or a subclass of it. *)
Inductive pyclass : Type :=
| PRDD_class
| Subclass (id : string).

(** An instance: its class and its one attribute, unset until
    [__init__] has run. *)
Record instance : Type := mkInstance {
  class_of : pyclass;
  _rdd : option RDD
}.

(** The state of the interpreter: the instances allocated so far, and
    the number of jobs the runtime has run. *)
Record state : Type := mkState {
  heap : gmap ref instance;
  jobs : nat
}.

(** Calls run in the state and may raise. *)
Definition M (A : Type) : Type := state → result A * state.

#[global] Instance M_ret : MRet M := λ A a σ, (Ok a, σ).
#[global] Instance M_bind : MBind M :=
  λ A B k m σ, match m σ with
               | (Ok a, σ') => k a σ'
               | (Err e, σ') => (Err e, σ')
               end.

Definition lift {A} (r : result A) : M A := λ σ, (r, σ).

(** [self._rdd] *)
Definition get_rdd (self : ref) : M RDD :=
  λ σ, match heap σ !! self ≫= _rdd with
       | Some rdd => (Ok rdd, σ)
       | None => (Err AttributeError, σ)
       end.

(** [type(self)], the class that a class method called on [self] gets. *)
Definition type_of (self : ref) : M pyclass :=
  λ σ, match heap σ !! self with
       | Some o => (Ok (class_of o), σ)
       | None => (Err AttributeError, σ)
       end.

(** Running a job: the runtime computes and the result comes back. *)
Definition run_job {A} (r : result A) : M A :=
  λ σ, (r, mkState (heap σ) (S (jobs σ))).

(** A new instance of class [c], with no attribute yet. *)
Definition alloc (c : pyclass) : M ref :=
  λ σ, let self := fresh (dom (heap σ)) in
       (Ok self, mkState (<[self := mkInstance c None]> (heap σ)) (jobs σ)).

(** [PRDD.__init__]: [self._rdd = rdd]. *)
Definition __init__ (self : ref) (rdd : RDD) : M unit :=
  λ σ, match heap σ !! self with
       | Some o =>
           (Ok (), mkState (<[self := mkInstance (class_of o) (Some rdd)]> (heap σ))
                           (jobs σ))
       | None => (Err AttributeError, σ)
       end.

(** The call [PRDD(rdd)]: a new instance, initialised by [__init__]. *)
Definition PRDD (rdd : RDD) : M ref :=
  self ← alloc PRDD_class; _ ← __init__ self rdd; mret self.

(** [fromRDD]: a class method, [cls] is the class it is called on. *)
Definition fromRDD (cls : pyclass) (rdd : RDD) : M ref :=
  PRDD rdd.

(** [applymap]:
    [return self.fromRDD(self._rdd.map(lambda data: data.applymap(f), **kwargs))] *)
Definition applymap (self : ref) (f : cell → result cell) (kwargs : gmap string bool)
  : M ref :=
  cls ← type_of self;
  rdd ← get_rdd self;
  mapped ← lift (map (λ data, py_applymap f data) kwargs rdd);
  fromRDD cls mapped.

(** [__getitem__]: [return self.fromRDD(self._rdd.map(lambda x: x[key]))] *)
Definition __getitem__ (self : ref) (key : string) : M ref :=
  cls ← type_of self;
  rdd ← get_rdd self;
  mapped ← lift (map (λ x, py_getitem key x) ∅ rdd);
  fromRDD cls mapped.

(** [collect]: [return self._rdd.reduce(appendFrames)] *)
Definition appendFrames (frame_a frame_b : pyobj) : result pyobj :=
  py_append frame_a frame_b.

Definition collect (sched : schedule) (self : ref) : M pyobj :=
  rdd ← get_rdd self;
  run_job (reduce sched appendFrames rdd).

(** [stats(columns = [])]:
    [return self._rdd.mapPartitions(lambda i: [ColumnStatCounters(dataframes = i, columns = columns)]).reduce(reduceFunc)]
    where [reduceFunc(sc1, sc2)] returns [sc1.merge_stats(sc2)] (after
    printing [sc1] where the runtime runs it, which has no bearing on the
    value returned).  A call without argument is [stats] of [[]]. *)
Definition reduceFunc (sc1 sc2 : pyobj) : result pyobj :=
  match sc1, sc2 with
  | PyStats c1, PyStats c2 => Ok (PyStats (ColumnStatCounters.merge_stats c1 c2))
  | _, _ => Err AttributeError
  end.

Definition stats (sched : schedule) (self : ref) (columns : list string) : M pyobj :=
  rdd ← get_rdd self;
  run_job (reduce sched reduceFunc
             (mapPartitions
                (λ i, c ← ColumnStatCounters.new i columns; mret [PyStats c])
                rdd)).

End PRDD.

(** * Properties *)

(** ** Fallible maps over lists *)

Section mapM_result.
Context {A B : Type} (f : A → result B).

Lemma mapM_cons x l :
  mapM f (x :: l) = y ← f x; k ← mapM f l; mret (y :: k).
Proof. reflexivity. Qed.

Lemma mapM_Ok_Forall2 l k :
  mapM f l = Ok k ↔ Forall2 (λ x y, f x = Ok y) l k.
Proof.
  revert k. induction l as [|x l IH]; intros k.
  - split.
    + intros [= <-]. constructor.
    + intros H. inversion H. reflexivity.
  - rewrite mapM_cons. split.
    + destruct (f x) as [y|e] eqn:Hx; simpl; [|discriminate].
      destruct (mapM f l) as [k'|e] eqn:Hl; simpl; [|discriminate].
      intros [= <-]. constructor; [assumption|]. by apply IH.
    + intros H. inversion H as [|? y ? k' Hx Hl]; subst.
      rewrite Hx. simpl. apply IH in Hl. rewrite Hl. reflexivity.
Qed.

Lemma mapM_app l1 l2 :
  mapM f (l1 ++ l2) = k1 ← mapM f l1; k2 ← mapM f l2; mret (k1 ++ k2).
Proof.
  induction l1 as [|x l1 IH].
  - simpl. destruct (mapM f l2); reflexivity.
  - rewrite <- app_comm_cons, !mapM_cons, IH.
    destruct (f x); simpl; [|reflexivity].
    destruct (mapM f l1); simpl; [|reflexivity].
    destruct (mapM f l2); reflexivity.
Qed.

Lemma mapM_is_Ok l :
  Forall (λ x, is_Ok (f x)) l → is_Ok (mapM f l).
Proof.
  induction 1 as [|x l [y Hy] _ [k Hk]]; [by exists []|].
  exists (y :: k). rewrite mapM_cons, Hy. simpl. rewrite Hk. reflexivity.
Qed.

End mapM_result.

Lemma mapM_Ok_id {A} (l : list A) : mapM Ok l = Ok l.
Proof.
  induction l as [|x l IH]; [reflexivity|].
  rewrite mapM_cons. simpl. rewrite IH. reflexivity.
Qed.

Lemma mapM_ext_in {A B} (f g : A → result B) l :
  (∀ x, x ∈ l → f x = g x) → mapM f l = mapM g l.
Proof.
  induction l as [|x l IH]; intros H; [reflexivity|].
  rewrite !mapM_cons, (H x) by left. rewrite IH; [reflexivity|].
  intros y Hy. apply H. by right.
Qed.

(** ** The order of a reduction *)

(** One step of the runtime's schedule takes two of the values to combine
    and puts their combination back. *)
Lemma combine_step_Permutation {A} (l : list A) (i j : nat) (x y z : A) :
  i ≠ j → l !! i = Some x → l !! j = Some y →
  ∃ rest, l ≡ₚ x :: y :: rest ∧ delete j (<[i := z]> l) ≡ₚ z :: rest.
Proof.
  intros Hij Hi Hj.
  assert (Hlen : (i < length l)%nat) by (eapply lookup_lt_Some; eassumption).
  assert (Hy : ∃ j', delete i l !! j' = Some y).
  { destruct (decide (j < i)%nat).
    - exists j. by rewrite list_lookup_delete_lt.
    - exists (pred j). rewrite list_lookup_delete_ge by lia.
      replace (S (pred j)) with j by lia. assumption. }
  destruct Hy as [j' Hj'].
  exists (delete j' (delete i l)). split.
  - rewrite (delete_Permutation l i x Hi) at 1.
    by rewrite (delete_Permutation (delete i l) j' y Hj') at 1.
  - assert (Hz : <[i := z]> l ≡ₚ z :: delete i l).
    { rewrite (delete_Permutation (<[i := z]> l) i z)
        by (by apply list_lookup_insert_eq).
      f_equiv. rewrite !delete_take_drop, take_insert_ge, drop_insert_lt by lia.
      reflexivity. }
    assert (Hy : <[i := z]> l ≡ₚ y :: delete j (<[i := z]> l)).
    { apply delete_Permutation. by rewrite list_lookup_insert_ne. }
    symmetry. apply (Permutation_cons_inv (a := y)).
    rewrite <- Hy, Hz, Permutation_swap. f_equiv.
    symmetry. by apply delete_Permutation.
Qed.

(** A step on two neighbours puts their combination in their place. *)
Lemma neighbours_split {A} (l : list A) (i : nat) (x y : A) :
  l !! i = Some x → l !! S i = Some y →
  ∃ l1 l2, l = l1 ++ x :: y :: l2 ∧
           ∀ z, delete (S i) (<[i := z]> l) = l1 ++ z :: l2.
Proof.
  revert i. induction l as [|a l IH]; intros i Hi Hj; [done|].
  destruct i as [|i].
  - injection Hi as ->. destruct l as [|b l]; [done|]. injection Hj as ->.
    by exists [], l.
  - destruct (IH i Hi Hj) as (l1 & l2 & -> & Hstep).
    exists (a :: l1), l2. split; [reflexivity|]. intros z. simpl.
    f_equal. apply Hstep.
Qed.

Section reduction.
Import Spark.

Context {A B : Type} (f : A → A → result A).
Context (P : A → Prop) (μ : A → B).
Context (op : B → B → B) (ε : B) (R : relation B).
Context `{!Equivalence R} `{!Proper (R ==> R ==> R) op}.
Context `{!Assoc R op} `{!LeftId R ε op} `{!RightId R ε op}.

(** [f] combines two values that satisfy [P] into one that does, and
    the measure [μ] of the result is that of the operands, combined
    by [op]. *)
Hypothesis f_measure :
  ∀ x y, P x → P y → ∃ z, f x y = Ok z ∧ P z ∧ R (μ z) (op (μ x) (μ y)).

Definition total (l : list A) : B := foldr (λ x acc, op (μ x) acc) ε l.

Lemma foldl_measure acc vals :
  P acc → Forall P vals →
  ∃ r, foldl (λ acc x, a ← acc; f a x) (Ok acc) vals = Ok r ∧ P r ∧
       R (μ r) (op (μ acc) (total vals)).
Proof.
  intros Hacc Hvals. revert acc Hacc.
  induction Hvals as [|v vals Hv _ IH]; intros acc Hacc.
  - exists acc. repeat split; [assumption|]. simpl. by rewrite right_id.
  - simpl. destruct (f_measure acc v Hacc Hv) as (z & -> & Hz & Hμ).
    destruct (IH z Hz) as (r & Hr & HPr & HRr).
    exists r. repeat split; [assumption..|].
    rewrite HRr, Hμ. by rewrite (assoc op).
Qed.

(** The driver's fold returns a value whose measure is the total of the
    measures, in the order of the list. *)
Lemma reduce_list_measure vals :
  vals ≠ [] → Forall P vals →
  ∃ r, reduce_list f vals = Ok r ∧ P r ∧ R (μ r) (total vals).
Proof.
  destruct vals as [|v vals]; [done|]. intros _ Hall.
  inversion Hall as [|? ? Hv Hvals]; subst.
  apply foldl_measure; assumption.
Qed.

Lemma total_app l1 l2 : R (total (l1 ++ l2)) (op (total l1) (total l2)).
Proof.
  induction l1 as [|x l1 IH]; simpl.
  - by rewrite left_id.
  - by rewrite IH, (assoc op).
Qed.

(** Steps on neighbours leave the total of the values as it is, in
    their order: [op] need not be commutative. *)
Lemma combine_adjacent_measure steps work :
  adjacent steps → Forall P work →
  ∃ work', combine f steps work = Ok work' ∧ Forall P work' ∧
           R (total work') (total work) ∧ (work' = [] ↔ work = []).
Proof.
  intros Hadj. revert work. induction Hadj as [|[i j] steps Hij _ IH]; intros work Hall.
  - exists work. repeat split; try done.
  - simpl in Hij. subst j. simpl.
    destruct (work !! i) as [x|] eqn:Hi; [|by apply IH].
    destruct (work !! S i) as [y|] eqn:Hj; [|by apply IH].
    rewrite decide_False by lia.
    assert (Hx : P x) by (eapply Forall_lookup_1; eassumption).
    assert (Hy : P y) by (eapply Forall_lookup_1; eassumption).
    destruct (f_measure x y Hx Hy) as (z & -> & Hz & Hμ). simpl.
    destruct (neighbours_split work i x y Hi Hj) as (l1 & l2 & -> & Hstep).
    rewrite Hstep.
    apply Forall_app in Hall as [Hl1 Hl2].
    do 2 apply Forall_cons_1 in Hl2 as [_ Hl2].
    assert (Hall' : Forall P (l1 ++ z :: l2)).
    { apply Forall_app. split; [assumption|]. by constructor. }
    destruct (IH _ Hall') as (work' & Hc & HP' & HR' & Hnil).
    exists work'. repeat split; try assumption.
    + rewrite HR', !total_app. simpl. f_equiv. rewrite Hμ. by rewrite (assoc op).
    + intros ->. destruct Hnil as [Hnil _]. specialize (Hnil eq_refl).
      by destruct l1.
    + intros Hnil'. by destruct l1.
Qed.

(** A reduction that combines neighbours only returns a value whose
    measure is the total of the measures, in the order of the values. *)
Lemma adjacent_measure steps work :
  adjacent steps → work ≠ [] → Forall P work →
  ∃ r, (vals ← combine f steps work; reduce_list f vals) = Ok r ∧ P r ∧
       R (μ r) (total work).
Proof.
  intros Hadj Hne Hall.
  destruct (combine_adjacent_measure steps work Hadj Hall)
    as (work' & -> & HP' & HR' & Hnil).
  simpl. destruct (reduce_list_measure work') as (r & Hr & HPr & HRr);
    [tauto|assumption|].
  exists r. repeat split; [assumption..|]. by rewrite HRr.
Qed.

Context `{!Comm R op}.

Lemma total_Permutation l1 l2 : l1 ≡ₚ l2 → R (total l1) (total l2).
Proof.
  induction 1 as [|x l1 l2 _ IH|x y l|l1 l2 l3 _ IH1 _ IH2]; simpl.
  - reflexivity.
  - by rewrite IH.
  - rewrite !(assoc op). f_equiv. apply (comm op).
  - by rewrite IH1.
Qed.

(** Whatever steps the runtime takes, the values left to combine
    satisfy [P] and have the same total. *)
Lemma combine_measure steps work :
  Forall P work →
  ∃ work', combine f steps work = Ok work' ∧ Forall P work' ∧
           R (total work') (total work) ∧ (work' = [] ↔ work = []).
Proof.
  revert work. induction steps as [|[i j] steps IH]; intros work Hall.
  - exists work. repeat split; try done.
  - simpl. destruct (work !! i) as [x|] eqn:Hi; [|by apply IH].
    destruct (work !! j) as [y|] eqn:Hj; [|by apply IH].
    destruct (decide (i = j)) as [|Hij]; [by apply IH|].
    assert (Hx : P x) by (eapply Forall_lookup_1; eassumption).
    assert (Hy : P y) by (eapply Forall_lookup_1; eassumption).
    destruct (f_measure x y Hx Hy) as (z & -> & Hz & Hμ). simpl.
    destruct (combine_step_Permutation work i j x y z Hij Hi Hj)
      as (rest & Hwork & Hwork').
    assert (Hall' : Forall P (delete j (<[i := z]> work))).
    { rewrite Hwork'. constructor; [assumption|].
      rewrite Hwork in Hall. by do 2 apply Forall_cons_1 in Hall as [_ Hall]. }
    destruct (IH _ Hall') as (work' & Hc & HP' & HR' & Hnil).
    exists work'. repeat split; try assumption.
    + rewrite HR', (total_Permutation _ _ Hwork'), (total_Permutation _ _ Hwork).
      simpl. rewrite Hμ. by rewrite (assoc op).
    + intros ->. destruct Hnil as [Hnil _]. specialize (Hnil eq_refl).
      rewrite Hnil in Hwork'. by apply Permutation_nil_cons in Hwork'.
    + intros ->. discriminate.
Qed.

(** A reduction over values that satisfy [P] returns, under any
    schedule, a value whose measure is the total of the measures. *)
Lemma schedule_measure steps work :
  work ≠ [] → Forall P work →
  ∃ r, (vals ← combine f steps work; reduce_list f vals) = Ok r ∧ P r ∧
       R (μ r) (total work).
Proof.
  intros Hne Hall.
  destruct (combine_measure steps work Hall) as (work' & -> & HP' & HR' & Hnil).
  simpl. destruct (reduce_list_measure work') as (r & Hr & HPr & HRr);
    [tauto|assumption|].
  exists r. repeat split; [assumption..|]. by rewrite HRr.
Qed.

End reduction.

(** ** Running the methods of [PRDD] *)

Module PRDD_run.
Import Spark PRDD.

(** [self] is an initialised instance whose handle is [rdd]. *)
Definition wraps (σ : state) (self : ref) (rdd : RDD) : Prop :=
  heap σ !! self ≫= _rdd = Some rdd.

(** The state after [PRDD(rdd)]. *)
Definition constructed (rdd : RDD) (σ : state) : state :=
  mkState (<[fresh (dom (heap σ)) := mkInstance PRDD_class (Some rdd)]> (heap σ))
          (jobs σ).

Lemma fresh_ref (σ : state) : heap σ !! fresh (dom (heap σ)) = None.
Proof. apply not_elem_of_dom, is_fresh. Qed.

Lemma PRDD_eq rdd σ :
  PRDD rdd σ = (Ok (fresh (dom (heap σ))), constructed rdd σ).
Proof.
  unfold PRDD, constructed, mbind, M_bind, alloc, __init__, mret, M_ret. simpl.
  rewrite lookup_insert_eq. simpl. by rewrite insert_insert_eq.
Qed.

Lemma constructed_wraps rdd σ :
  wraps (constructed rdd σ) (fresh (dom (heap σ))) rdd.
Proof. unfold wraps, constructed. simpl. by rewrite lookup_insert_eq. Qed.

Lemma constructed_old rdd σ q :
  is_Some (heap σ !! q) → heap (constructed rdd σ) !! q = heap σ !! q.
Proof.
  intros Hq. unfold constructed. simpl. apply lookup_insert_ne.
  intros <-. rewrite fresh_ref in Hq. by destruct Hq.
Qed.

Lemma wraps_is_Some σ self rdd : wraps σ self rdd → is_Some (heap σ !! self).
Proof. unfold wraps. destruct (heap σ !! self); [eauto|discriminate]. Qed.

Lemma get_rdd_eq σ self rdd : wraps σ self rdd → get_rdd self σ = (Ok rdd, σ).
Proof. unfold wraps, get_rdd. by intros ->. Qed.

Lemma type_of_wraps σ self rdd :
  wraps σ self rdd → ∃ c, type_of self σ = (Ok c, σ).
Proof.
  intros [o Ho]%wraps_is_Some. exists (class_of o). unfold type_of. by rewrite Ho.
Qed.

Lemma map_no_kwargs f rdd : map f ∅ rdd = Ok (PipelinedRDD rdd (mapM f) false).
Proof.
  unfold map. rewrite dom_empty_L.
  destruct (decide _) as [|H]; [reflexivity|]. exfalso. apply H. set_solver.
Qed.

Lemma applymap_eq σ self rdd f kwargs mapped :
  wraps σ self rdd →
  map (py_applymap f) kwargs rdd = Ok mapped →
  applymap self f kwargs σ = (Ok (fresh (dom (heap σ))), constructed mapped σ).
Proof.
  intros Hw Hmap. destruct (type_of_wraps _ _ _ Hw) as [c Hc].
  unfold applymap, mbind, M_bind, lift, fromRDD.
  rewrite Hc, (get_rdd_eq _ _ _ Hw).
  change (map _ kwargs rdd) with (map (py_applymap f) kwargs rdd).
  rewrite Hmap. apply PRDD_eq.
Qed.

Lemma getitem_eq σ self rdd key :
  wraps σ self rdd →
  __getitem__ self key σ =
    (Ok (fresh (dom (heap σ))),
     constructed (PipelinedRDD rdd (mapM (py_getitem key)) false) σ).
Proof.
  intros Hw. destruct (type_of_wraps _ _ _ Hw) as [c Hc].
  unfold __getitem__, mbind, M_bind, lift, fromRDD.
  rewrite Hc, (get_rdd_eq _ _ _ Hw), map_no_kwargs. apply PRDD_eq.
Qed.

Lemma collect_eq sched σ self rdd :
  wraps σ self rdd →
  collect sched self σ =
    (reduce sched appendFrames rdd, mkState (heap σ) (S (jobs σ))).
Proof.
  intros Hw. unfold collect, mbind, M_bind.
  by rewrite (get_rdd_eq _ _ _ Hw).
Qed.

Lemma stats_eq sched σ self rdd cols :
  wraps σ self rdd →
  stats sched self cols σ =
    (reduce sched reduceFunc
       (mapPartitions (λ i, c ← ColumnStatCounters.new i cols; mret [PyStats c]) rdd),
     mkState (heap σ) (S (jobs σ))).
Proof.
  intros Hw. unfold stats, mbind, M_bind.
  by rewrite (get_rdd_eq _ _ _ Hw).
Qed.

(** Without a handle to read, every method raises and leaves the state
    as it was. *)
Lemma get_rdd_unwrapped σ self :
  heap σ !! self ≫= _rdd = None → get_rdd self σ = (Err AttributeError, σ).
Proof. unfold get_rdd. by intros ->. Qed.

(** A handle obtained by a transformation is not the handle it was
    obtained from. *)
Lemma PipelinedRDD_neq rdd func b : PipelinedRDD rdd func b ≠ rdd.
Proof.
  revert func b. induction rdd as [|prev IH func' b']; intros func b; [done|].
  intros [= H _ _]. by apply IH in H.
Qed.

Lemma map_neq f kwargs rdd mapped : map f kwargs rdd = Ok mapped → mapped ≠ rdd.
Proof.
  unfold map. destruct (decide _); [|discriminate].
  intros [= <-]. apply PipelinedRDD_neq.
Qed.

End PRDD_run.

Import Spark PRDD PRDD_run.

(** ** Construction *)

(** C10: for every handle [rdd], the class method [fromRDD(rdd)], on
    whatever class it is called, and the direct construction [PRDD(rdd)]
    return the same reference in the same state; the instance holds [rdd]
    itself as its handle; hence any operation that follows behaves the
    same after either. *)
Theorem fromRDD_is_constructor (cls : pyclass) (rdd : RDD) (σ : state) :
  fromRDD cls rdd σ = PRDD rdd σ ∧
  (∃ p σ', fromRDD cls rdd σ = (Ok p, σ') ∧ get_rdd p σ' = (Ok rdd, σ')) ∧
  (∀ (A : Type) (k : ref → M A),
      (p ← fromRDD cls rdd; k p) σ = (p ← PRDD rdd; k p) σ).
Proof.
  split; [reflexivity|]. split; [|reflexivity].
  exists (fresh (dom (heap σ))), (constructed rdd σ). split.
  - apply PRDD_eq.
  - apply get_rdd_eq, constructed_wraps.
Qed.

(** C8: for every handle, [fromRDD] returns: it yields a reference that
    was not in use, to an instance that holds the handle, leaves every
    other instance as it was and runs no job.  The reference it returns
    does not depend on the handle, which is stored as it is.  A handle whose
    computation raises is wrapped like any other, a transformation of the
    wrapper is built like any other, and the exception is raised when
    [collect] runs the job. *)
Theorem fromRDD_unchecked (cls : pyclass) (rdd : RDD) (σ : state) :
  ∃ p σ',
    fromRDD cls rdd σ = (Ok p, σ') ∧
    heap σ !! p = None ∧
    wraps σ' p rdd ∧
    (∀ q, is_Some (heap σ !! q) → heap σ' !! q = heap σ !! q) ∧
    jobs σ' = jobs σ ∧
    (∀ rdd', ∃ σ'', fromRDD cls rdd' σ = (Ok p, σ'') ∧
                    heap σ'' = <[p := mkInstance PRDD_class (Some rdd')]> (heap σ)) ∧
    (∀ f, is_Ok (applymap p f ∅ σ').1 ∧ jobs (applymap p f ∅ σ').2 = jobs σ) ∧
    (∀ sched e, compute rdd = Err e →
                (collect sched p σ').1 = Err e ∧
                jobs (collect sched p σ').2 = S (jobs σ)).
Proof.
  exists (fresh (dom (heap σ))), (constructed rdd σ).
  pose proof (constructed_wraps rdd σ) as Hw.
  split; [apply PRDD_eq|]. split; [apply fresh_ref|]. split; [exact Hw|].
  split; [apply constructed_old|]. split; [reflexivity|].
  split; [|split].
  - intros rdd'. exists (constructed rdd' σ). split; [apply PRDD_eq|reflexivity].
  - intros f. erewrite applymap_eq; [|exact Hw|apply map_no_kwargs].
    split; [by eexists|reflexivity].
  - intros sched e He. rewrite (collect_eq _ _ _ _ Hw).
    split; [|reflexivity]. simpl. unfold reduce. by rewrite He.
Qed.

(** A collection of two integers is wrapped without complaint, mapped
    without complaint, and [collect] raises: integers have no [applymap]. *)
Lemma fromRDD_unchecked_witness :
  let rdd := PipelinedRDD (ParallelCollection [[PyInt 1; PyInt 2]])
                          (mapM (py_applymap Ok)) false in
  let σ := mkState ∅ 0 in
  compute rdd = Err AttributeError ∧
  ∃ p σ', fromRDD PRDD_class rdd σ = (Ok p, σ') ∧
          (collect in_order p σ').1 = Err AttributeError.
Proof.
  intros rdd σ. split; [reflexivity|].
  destruct (fromRDD_unchecked PRDD_class rdd σ)
    as (p & σ' & Hrun & _ & _ & _ & _ & _ & _ & Hlate).
  exists p, σ'. split; [exact Hrun|].
  apply (Hlate in_order AttributeError). reflexivity.
Defined.

(** ** The receiver is left as it is *)

Lemma applymap_cases σ self f kwargs :
  (∃ e, applymap self f kwargs σ = (Err e, σ)) ∨
  (∃ rdd mapped, wraps σ self rdd ∧ map (py_applymap f) kwargs rdd = Ok mapped ∧
                 applymap self f kwargs σ =
                   (Ok (fresh (dom (heap σ))), constructed mapped σ)).
Proof.
  destruct (heap σ !! self ≫= _rdd) as [rdd|] eqn:Hw.
  - destruct (map (py_applymap f) kwargs rdd) as [mapped|e] eqn:Hmap.
    + right. exists rdd, mapped. by rewrite (applymap_eq _ _ _ _ _ _ Hw Hmap).
    + left. exists e. destruct (type_of_wraps _ _ _ Hw) as [c Hc].
      unfold applymap, mbind, M_bind, lift.
      rewrite Hc, (get_rdd_eq _ _ _ Hw).
      change (map _ kwargs rdd) with (map (py_applymap f) kwargs rdd).
      by rewrite Hmap.
  - left. exists AttributeError. pose proof (get_rdd_unwrapped _ _ Hw) as Hg.
    unfold applymap, mbind, M_bind, type_of.
    destruct (heap σ !! self) as [o|]; [|reflexivity].
    by rewrite Hg.
Qed.

Lemma getitem_cases σ self key :
  __getitem__ self key σ = (Err AttributeError, σ) ∨
  (∃ rdd, wraps σ self rdd ∧
          __getitem__ self key σ =
            (Ok (fresh (dom (heap σ))),
             constructed (PipelinedRDD rdd (mapM (py_getitem key)) false) σ)).
Proof.
  destruct (heap σ !! self ≫= _rdd) as [rdd|] eqn:Hw.
  - right. exists rdd. by rewrite (getitem_eq _ _ _ _ Hw).
  - left. pose proof (get_rdd_unwrapped _ _ Hw) as Hg.
    unfold __getitem__, mbind, M_bind, type_of.
    destruct (heap σ !! self) as [o|]; [|reflexivity].
    by rewrite Hg.
Qed.

Lemma collect_heap sched σ self : heap (collect sched self σ).2 = heap σ.
Proof.
  unfold collect, mbind, M_bind, get_rdd.
  destruct (heap σ !! self ≫= _rdd); reflexivity.
Qed.

Lemma stats_heap sched σ self cols : heap (stats sched self cols σ).2 = heap σ.
Proof.
  unfold stats, mbind, M_bind, get_rdd.
  destruct (heap σ !! self ≫= _rdd); reflexivity.
Qed.

(** What a transformation does to the instances: those that existed are
    as they were, the receiver among them, and the wrapper returned is a
    new instance over a handle that is not the receiver's. *)
Definition transformation_frame (σ : state) (self : ref) (out : result ref * state) : Prop :=
  heap out.2 !! self = heap σ !! self ∧
  (∀ q, is_Some (heap σ !! q) → heap out.2 !! q = heap σ !! q) ∧
  (∀ p, out.1 = Ok p →
        heap σ !! p = None ∧ p ≠ self ∧
        ∃ rdd rdd', wraps σ self rdd ∧ wraps out.2 p rdd' ∧ rdd' ≠ rdd).

Lemma transformation_frame_constructed σ self rdd mapped :
  wraps σ self rdd → mapped ≠ rdd →
  transformation_frame σ self (Ok (fresh (dom (heap σ))), constructed mapped σ).
Proof.
  intros Hw Hneq. pose proof (wraps_is_Some _ _ _ Hw) as Hself.
  split; [by apply constructed_old|]. split; [apply constructed_old|].
  intros p [= <-]. split; [apply fresh_ref|]. split.
  - intros Heq. rewrite <- Heq, fresh_ref in Hself. by destruct Hself.
  - exists rdd, mapped. split; [assumption|]. split; [apply constructed_wraps|assumption].
Qed.

Lemma transformation_frame_raised σ self e :
  transformation_frame σ self (Err e, σ).
Proof. split; [reflexivity|]. split; [reflexivity|]. intros p [=]. Qed.

(** C6: for every state, every receiver and every operation, the
    instance of the receiver, and so its handle [_rdd], is after the
    operation what it was before.  [applymap] and [__getitem__] leave every
    existing instance as it was and, when they return, return a reference
    that was not in use, to a new instance whose handle is not the
    receiver's; [collect] and [stats] leave all instances as they were. *)
Theorem operations_leave_receiver (sched : schedule) (σ : state) (self : ref) :
  (∀ f kwargs, transformation_frame σ self (applymap self f kwargs σ)) ∧
  (∀ key, transformation_frame σ self (__getitem__ self key σ)) ∧
  heap (collect sched self σ).2 = heap σ ∧
  (∀ columns, heap (stats sched self columns σ).2 = heap σ).
Proof.
  split; [|split; [|split]].
  - intros f kwargs.
    destruct (applymap_cases σ self f kwargs)
      as [[e ->]|(rdd & mapped & Hw & Hmap & ->)].
    + apply transformation_frame_raised.
    + apply (transformation_frame_constructed _ _ rdd); [assumption|].
      eapply map_neq; eassumption.
  - intros key.
    destruct (getitem_cases σ self key) as [->|(rdd & Hw & ->)].
    + apply transformation_frame_raised.
    + apply (transformation_frame_constructed _ _ rdd); [assumption|].
      apply PipelinedRDD_neq.
  - apply collect_heap.
  - intros columns. apply stats_heap.
Qed.

(** ** [collect] over nothing *)

Lemma combine_nil {A} (f : A → A → result A) steps : combine f steps [] = Ok [].
Proof. induction steps as [|[i j] steps IH]; [reflexivity|exact IH]. Qed.

(** C4: when the computation of the wrapped collection produces no
    element (no partition, or only empty ones), [collect] raises instead of
    returning a value. *)
Theorem collect_empty_raises (sched : schedule) (σ : state) (self : ref)
        (rdd : RDD) (parts : list (list pyobj)) :
  wraps σ self rdd →
  compute rdd = Ok parts →
  concat parts = [] →
  is_Err (collect sched self σ).1.
Proof.
  intros Hw Hparts Hnil. rewrite (collect_eq _ _ _ _ Hw). simpl.
  unfold reduce. rewrite Hparts. simpl. rewrite Hnil, combine_nil. simpl.
  by eexists.
Qed.

(** A wrapper over a collection of two empty partitions. *)
Lemma collect_empty_raises_witness :
  let rdd := ParallelCollection [[]; []] in
  let σ := constructed rdd (mkState ∅ 0) in
  is_Err (collect in_order (fresh (dom (∅ : gmap ref instance))) σ).1.
Proof.
  intros rdd σ.
  apply (collect_empty_raises in_order σ _ rdd [[]; []]).
  - apply (constructed_wraps rdd (mkState ∅ 0)).
  - reflexivity.
  - reflexivity.
Defined.

(** ** Reducing a mapped collection *)

Lemma mapM_concat {A B} (g : A → result B) (parts : list (list A)) :
  @concat B <$> mapM (mapM g) parts = mapM g (concat parts).
Proof.
  induction parts as [|p parts IH]; [reflexivity|].
  rewrite mapM_cons. simpl concat. rewrite mapM_app, <- IH.
  destruct (mapM g p); simpl; [|reflexivity].
  destruct (mapM (mapM g) parts); reflexivity.
Qed.

Lemma mapM_length {A B} (g : A → result B) l k : mapM g l = Ok k → length k = length l.
Proof.
  intros H%mapM_Ok_Forall2. symmetry. eapply Forall2_length. exact H.
Qed.

Lemma mapM_mapM_lengths {A B} (g : A → result B) parts parts' :
  mapM (mapM g) parts = Ok parts' → length <$> parts' = length <$> parts.
Proof.
  intros H%mapM_Ok_Forall2.
  induction H as [|p p' parts parts' Hp _ IH]; [reflexivity|].
  rewrite !fmap_cons, IH. f_equal. by eapply mapM_length.
Qed.

(** The reduction of a collection whose elements are known. *)
Lemma reduce_eq sched f rdd parts :
  compute rdd = Ok parts →
  reduce sched f rdd =
    (vals ← combine f (sched (length <$> parts)) (concat parts); reduce_list f vals).
Proof. intros H. unfold reduce. by rewrite H. Qed.

(** The reduction of [rdd.map(g)]: the elements are those of [rdd]
    under [g], laid out in the same partitions. *)
Lemma reduce_mapped_Ok sched f rdd parts g b elems :
  compute rdd = Ok parts →
  mapM g (concat parts) = Ok elems →
  reduce sched f (PipelinedRDD rdd (mapM g) b) =
    (vals ← combine f (sched (length <$> parts)) elems; reduce_list f vals).
Proof.
  intros Hparts Helems. unfold reduce. simpl. rewrite Hparts. simpl.
  rewrite <- mapM_concat in Helems.
  destruct (mapM (mapM g) parts) as [parts'|] eqn:Hparts'; [|discriminate].
  injection Helems as <-. simpl.
  by rewrite (mapM_mapM_lengths _ _ _ Hparts').
Qed.

Lemma reduce_mapped_Err sched f rdd parts g b :
  compute rdd = Ok parts →
  is_Err (mapM g (concat parts)) →
  is_Err (reduce sched f (PipelinedRDD rdd (mapM g) b)).
Proof.
  intros Hparts [e He]. unfold reduce. simpl. rewrite Hparts. simpl.
  rewrite <- mapM_concat in He.
  destruct (mapM (mapM g) parts) as [parts'|e'] eqn:Hparts'; [discriminate|].
  by exists e'.
Qed.

Lemma map_valid_kwargs f kwargs rdd :
  dom kwargs ⊆ ({[ "preservesPartitioning" ]} : gset string) →
  ∃ b, map f kwargs rdd = Ok (PipelinedRDD rdd (mapM f) b).
Proof. intros H. unfold map. rewrite decide_True by assumption. by eexists. Qed.

(** ** The tabular engine *)

(** *** Re-typing *)

Lemma row_eta (r : row) : (r.1, r.2) = r.
Proof. by destruct r. Qed.

Lemma upcast_where_length flags r : length (upcast_where flags r) = length r.
Proof.
  revert r. induction flags as [|b flags IH]; intros [|x r]; simpl; try reflexivity.
  by rewrite IH.
Qed.

Lemma upcast_where_lookup flags r j :
  upcast_where flags r !! j =
  (λ x, if default false (flags !! j) then upcast x else x) <$> r !! j.
Proof.
  revert r j. induction flags as [|b flags IH]; intros r j.
  - rewrite lookup_nil. simpl. by destruct (r !! j).
  - destruct r as [|x r]; [reflexivity|]. destruct j as [|j]; [reflexivity|].
    simpl. apply IH.
Qed.

(** Rows are left as they are when no flagged cell is an integer. *)
Lemma upcast_where_id flags r :
  (∀ j x, r !! j = Some x → flags !! j = Some true → upcast x = x) →
  upcast_where flags r = r.
Proof.
  intros H. apply list_eq. intros j. rewrite upcast_where_lookup.
  destruct (r !! j) as [x|] eqn:Hx; [|reflexivity]. simpl.
  destruct (flags !! j) as [[|]|] eqn:Hb; simpl; try reflexivity.
  f_equal. by apply (H j).
Qed.

Lemma retype_id flag width rs :
  (∀ (r : row) j x, r ∈ rs → r.2 !! j = Some x → (j < width)%nat → flag j = true →
                    upcast x = x) →
  retype flag width rs = rs.
Proof.
  intros H. unfold retype. rewrite <- (list_fmap_id rs) at 2.
  apply list_fmap_ext. intros i [z r] Hr. simpl. unfold Datatypes.id. f_equal.
  apply upcast_where_id. intros j x Hx Hb.
  rewrite list_lookup_fmap in Hb.
  destruct (seq 0 width !! j) as [j'|] eqn:Hj; [|discriminate].
  apply lookup_seq in Hj as [-> Hlt]. injection Hb as Hb.
  apply (H (z, r) j x); [by eapply list_elem_of_lookup_2| | |]; done.
Qed.

Lemma retype_length flag width rs : length (retype flag width rs) = length rs.
Proof. unfold retype. by rewrite length_fmap. Qed.

(** *** Typed columns *)

(** The types of the cells of a column that pandas never re-types: text
    (strings and missing values), integers of 64 bits, and floats (with
    missing values). *)
Inductive ctype : Type := TText | TInt | TFloat.

#[global] Instance ctype_eq_dec : EqDecision ctype.
Proof. solve_decision. Defined.

Definition has_type (t : ctype) (c : cell) : Prop :=
  match t with
  | TText => match c with CStr _ | CNaN => True | _ => False end
  | TInt => is_int64 c = true
  | TFloat => is_float c = true
  end.

Lemma upcast_typed t c : has_type t c → t ≠ TInt → upcast c = c.
Proof. destruct t, c; simpl; try done. Qed.

Lemma kind_of_ints (col : list cell) :
  Forall (has_type TInt) col → kind_of col = KInt.
Proof.
  intros H. unfold kind_of.
  assert (existsb is_object col = false) as ->.
  { induction H as [|c col Hc _ IH]; [reflexivity|]. simpl. rewrite IH.
    destruct c; simpl in *; try done. by rewrite Hc. }
  assert (forallb is_int64 col = true) as ->; [|reflexivity].
  induction H as [|c col Hc _ IH]; [reflexivity|]. simpl in *. by rewrite Hc, IH.
Qed.

(** Two columns of one type are stacked as they are. *)
Lemma needs_upcast_typed t xs ys c :
  Forall (has_type t) xs → Forall (has_type t) ys → has_type t c →
  needs_upcast xs ys = true → upcast c = c.
Proof.
  intros Hxs Hys Hc Hflag. destruct (decide (t = TInt)) as [->|Hne].
  - unfold needs_upcast in Hflag. by rewrite !kind_of_ints in Hflag.
  - by apply (upcast_typed t).
Qed.

(** A column of one type is not re-typed by [applymap]. *)
Lemma not_mixed_typed t col c :
  Forall (has_type t) col → has_type t c →
  bool_decide (kind_of col = KMixed) = true → upcast c = c.
Proof.
  intros Hcol Hc Hflag. destruct (decide (t = TInt)) as [->|Hne].
  - apply bool_decide_eq_true in Hflag. by rewrite kind_of_ints in Hflag.
  - by apply (upcast_typed t).
Qed.

Lemma append_values_typed t (xs ys : list (Z * cell)) :
  Forall (λ v, has_type t v.2) xs → Forall (λ v, has_type t v.2) ys →
  append_values xs ys = xs ++ ys.
Proof.
  intros Hxs Hys. unfold append_values.
  destruct (needs_upcast _ _) eqn:Hflag; [|reflexivity].
  rewrite <- (list_fmap_id (xs ++ ys)) at 2. apply list_fmap_ext.
  intros i [z c] Hv. simpl. f_equal.
  apply (needs_upcast_typed t (snd <$> xs) (snd <$> ys)); try done.
  - by apply Forall_fmap.
  - by apply Forall_fmap.
  - apply list_elem_of_lookup_2 in Hv.
    assert (Hall : Forall (λ v : Z * cell, has_type t v.2) (xs ++ ys))
      by (by apply Forall_app).
    by apply (proj1 (Forall_forall _ _) Hall (z, c)).
Qed.

(** *** Columns that [applymap] leaves with their cells *)

Definition is_str (c : cell) : bool := match c with CStr _ => true | _ => false end.

(** A column whose type [applymap] finds back as it was: it holds a
    string, or integers of 64 bits only, or floats and missing values
    only.  (A column of integers beside missing values is not settled.) *)
Definition settled_column (xs : list cell) : bool :=
  existsb is_str xs || forallb is_int64 xs || forallb is_float xs.

Definition settled (d : DataFrame) : bool :=
  forallb (λ j, settled_column (col j (rows d))) (seq 0 (length (columns d))).

Definition is_settled_frame (x : pyobj) : Prop := ∃ d, x = PyFrame d ∧ settled d = true.

Lemma settled_column_kind xs : settled_column xs = true → kind_of xs ≠ KMixed.
Proof.
  unfold settled_column, kind_of. intros H.
  destruct (existsb is_object xs) eqn:Hobj; [done|].
  destruct (forallb is_int64 xs) eqn:Hint; [done|].
  destruct (forallb is_float xs) eqn:Hfl; [done|]. exfalso.
  rewrite !orb_false_r in H.
  assert (existsb is_object xs = true); [|congruence].
  clear -H. induction xs as [|c xs IH]; [done|]. simpl in *.
  apply orb_true_iff in H as [H|H]; [by destruct c|].
  by rewrite (IH H), orb_true_r.
Qed.

Lemma infer_types_settled (d : DataFrame) : settled d = true → infer_types d = d.
Proof.
  intros H. destruct d as [cols rs]. unfold infer_types. simpl. f_equal.
  apply retype_id. intros r j x _ _ Hj Hflag. exfalso.
  apply bool_decide_eq_true in Hflag. revert Hflag. apply settled_column_kind.
  unfold settled in H. simpl in H.
  apply (proj1 (forallb_forall _ _) H j). apply in_seq. lia.
Qed.

Lemma row_applymap_id (r : row) : row_applymap Ok r = Ok r.
Proof. destruct r as [i cs]. unfold row_applymap. simpl. by rewrite mapM_Ok_id. Qed.

Lemma map_cells_id (d : DataFrame) : map_cells Ok d = Ok d.
Proof.
  destruct d as [cols rs]. unfold map_cells. simpl.
  rewrite (mapM_ext_in _ Ok) by (intros; apply row_applymap_id).
  by rewrite mapM_Ok_id.
Qed.

Lemma df_applymap_id (d : DataFrame) : settled d = true → df_applymap Ok d = Ok d.
Proof. intros H. unfold df_applymap. rewrite map_cells_id. simpl. by rewrite infer_types_settled. Qed.

Lemma py_applymap_id (x : pyobj) : is_settled_frame x → py_applymap Ok x = Ok x.
Proof. intros (d & -> & H). simpl. by rewrite df_applymap_id. Qed.

(** ** The identity law of [applymap] *)

Definition applymap_then_collect (sched : schedule) (self : ref)
           (f : cell → result cell) (kwargs : gmap string bool) : M pyobj :=
  p ← applymap self f kwargs; collect sched p.

(** C9, as the code has it: on a collection of frames whose columns each
    hold a string, or integers only, or floats and missing values only,
    [applymap] of the identity function followed by [collect] returns
    what [collect] returns on the wrapper itself (under the same schedule
    of the runtime). *)
Theorem applymap_identity (sched : schedule) (σ : state) (self : ref) (rdd : RDD)
        (parts : list (list pyobj)) (kwargs : gmap string bool) :
  wraps σ self rdd →
  compute rdd = Ok parts →
  Forall (Forall is_settled_frame) parts →
  dom kwargs ⊆ ({[ "preservesPartitioning" ]} : gset string) →
  (applymap_then_collect sched self Ok kwargs σ).1 = (collect sched self σ).1.
Proof.
  intros Hw Hparts Hframes Hkw.
  destruct (map_valid_kwargs (py_applymap Ok) kwargs rdd Hkw) as [b Hmap].
  unfold applymap_then_collect, mbind, M_bind.
  rewrite (applymap_eq _ _ _ _ _ _ Hw Hmap).
  rewrite (collect_eq _ _ _ _ (constructed_wraps _ σ)), (collect_eq _ _ _ _ Hw).
  simpl. rewrite (reduce_eq _ _ _ _ Hparts).
  apply reduce_mapped_Ok; [assumption|].
  rewrite (mapM_ext_in _ Ok); [apply mapM_Ok_id|].
  intros x Hx. apply py_applymap_id.
  apply Forall_concat in Hframes.
  by apply (proj1 (Forall_forall _ _) Hframes).
Qed.

(** The three rows of the documentation of [applymap], one frame each,
    in two partitions. *)
Lemma applymap_identity_witness :
  let frame r := PyFrame (mkFrame ["magic"; "thing"] [(0, r)]) in
  let parts := [[frame [CStr "tea"; CStr "happy"]; frame [CStr "water"; CStr "sad"]];
                [frame [CStr "coffee"; CStr "happiest"]]] in
  let rdd := ParallelCollection parts in
  let σ := constructed rdd (mkState ∅ 0) in
  let self := fresh (dom (∅ : gmap ref instance)) in
  (applymap_then_collect in_order self Ok ∅ σ).1 = (collect in_order self σ).1.
Proof.
  intros frame parts rdd σ self.
  apply (applymap_identity in_order σ self rdd parts ∅).
  - apply (constructed_wraps rdd (mkState ∅ 0)).
  - reflexivity.
  - repeat constructor; by eexists.
  - set_solver.
Defined.

(** A frame of one column holding the integer 2^53 + 1 above a missing
    value: pandas keeps the mixed column as objects, and [applymap] finds
    the type float64 for the column of the results. *)
Definition beyond_float : DataFrame :=
  mkFrame ["n"] [(0, [CInt (2 ^ 53 + 1)]); (1, [CNaN])].

(** C9 as stated fails: on the one block [beyond_float], [collect]
    returns the block with its integer 2^53 + 1, and [applymap] of the
    identity function followed by [collect] returns the float 2^53 in its
    place. *)
Lemma applymap_identity_retypes :
  let rdd := ParallelCollection [[PyFrame beyond_float]] in
  let σ := constructed rdd (mkState ∅ 0) in
  let self := fresh (dom (∅ : gmap ref instance)) in
  (collect in_order self σ).1 = Ok (PyFrame beyond_float) ∧
  (applymap_then_collect in_order self Ok ∅ σ).1 =
    Ok (PyFrame (mkFrame ["n"] [(0, [CFloat (2 ^ 53) 0]); (1, [CNaN])])) ∧
  (applymap_then_collect in_order self Ok ∅ σ).1 ≠ (collect in_order self σ).1.
Proof.
  intros rdd σ self.
  assert (H1 : (collect in_order self σ).1 = Ok (PyFrame beyond_float))
    by (vm_compute; reflexivity).
  assert (H2 : (applymap_then_collect in_order self Ok ∅ σ).1 =
               Ok (PyFrame (mkFrame ["n"] [(0, [CFloat (2 ^ 53) 0]); (1, [CNaN])])))
    by (vm_compute; reflexivity).
  split; [exact H1|]. split; [exact H2|]. rewrite H1, H2. discriminate.
Qed.

(** ** Appending frames *)

Lemma cell_at_reindex (old new : list string) (r : list cell) (k : string) :
  k ∈ new → cell_at new (cell_at old r <$> new) k = cell_at old r k.
Proof.
  induction new as [|c new IH]; intros Hk; [by apply elem_of_nil in Hk|].
  rewrite fmap_cons. simpl. destruct (decide (c = k)) as [->|Hne]; [reflexivity|].
  apply IH. apply elem_of_cons in Hk as [->|Hk]; [done|assumption].
Qed.

(** The cell under a label is the cell at the position of the label. *)
Lemma cell_at_pos (cols : list string) (k : string) :
  k ∈ cols →
  ∃ j, (j < length cols)%nat ∧ ∀ r, cell_at cols r k = default CNaN (r !! j).
Proof.
  induction cols as [|c cols IH]; intros Hk; [by apply elem_of_nil in Hk|].
  destruct (decide (c = k)) as [->|Hne].
  - exists 0%nat. split; [simpl; lia|]. intros [|x r]; simpl; [done|].
    by rewrite decide_True.
  - apply elem_of_cons in Hk as [->|Hk]; [done|].
    destruct (IH Hk) as (j & Hj & Hcell). exists (S j). split; [simpl; lia|].
    intros [|x r]; simpl; [done|]. rewrite decide_False by done. apply Hcell.
Qed.

Lemma column_of_reindex (old new : list string) (rs : list row) (k : string) :
  k ∈ new →
  column_of k (mkFrame new (reindex old new <$> rs)) = column_of k (mkFrame old rs).
Proof.
  intros Hk. unfold column_of. simpl. rewrite <- list_fmap_compose.
  apply list_fmap_ext. intros _ [i r] _. simpl. by rewrite cell_at_reindex.
Qed.

(** The column of two stacks of rows is the two columns, appended as
    series are. *)
Lemma column_of_stack (cols : list string) (ra rb : list row) (k : string) :
  k ∈ cols →
  column_of k (stack cols ra rb) =
    append_values (column_of k (mkFrame cols ra)) (column_of k (mkFrame cols rb)).
Proof.
  intros Hk. destruct (cell_at_pos cols k Hk) as (j & Hj & Hcell).
  assert (Hcol : ∀ rs, snd <$> column_of k (mkFrame cols rs) = col j rs).
  { intros rs. unfold column_of, col. simpl. rewrite <- list_fmap_compose.
    apply list_fmap_ext. intros _ r _. simpl. apply Hcell. }
  unfold append_values. rewrite !Hcol. clear Hcol.
  unfold stack, column_of, retype. simpl.
  rewrite <- fmap_app, <- !list_fmap_compose.
  assert (Hcells : ∀ r : row,
             cell_at cols
               (upcast_where ((λ j, needs_upcast (col j ra) (col j rb)) <$>
                              seq 0 (length cols)) r.2) k =
             if needs_upcast (col j ra) (col j rb)
             then upcast (cell_at cols r.2 k) else cell_at cols r.2 k).
  { intros r. rewrite !Hcell, upcast_where_lookup, list_lookup_fmap.
    rewrite lookup_seq_lt by assumption.
    destruct (r.2 !! j); [reflexivity|]. cbn [fmap option_fmap option_map default].
    by destruct (needs_upcast _ _). }
  destruct (needs_upcast (col j ra) (col j rb)) eqn:Hflag.
  - apply list_fmap_ext. intros _ r _. simpl. f_equal. apply Hcells.
  - apply list_fmap_ext. intros _ r _. simpl. f_equal. apply Hcells.
Qed.

Lemma stack_length (cols : list string) (ra rb : list row) :
  length (rows (stack cols ra rb)) = (length ra + length rb)%nat.
Proof. unfold stack. simpl. by rewrite retype_length, length_app. Qed.

(** Frames with distinct labels: [append] never raises on them. *)
Definition distinct_labels (d : DataFrame) : Prop := NoDup (columns d).

Lemma df_append_distinct (a b : DataFrame) :
  distinct_labels a → distinct_labels b →
  ∃ z, df_append a b = Ok z ∧ distinct_labels z ∧
       (∀ k, k ∈ columns z ↔ k ∈ columns a ∨ k ∈ columns b) ∧
       length (rows z) = (length (rows a) + length (rows b))%nat ∧
       (∀ k, k ∈ columns a → k ∈ columns b →
             column_of k z = append_values (column_of k a) (column_of k b)).
Proof.
  intros Ha Hb. destruct a as [ca ra], b as [cb rb].
  unfold distinct_labels, df_append in *. simpl in *.
  destruct (decide (ca = cb)) as [->|Hne].
  - eexists. split; [reflexivity|]. split; [assumption|]. split; [simpl; tauto|].
    split; [apply stack_length|]. intros k Hk _. by apply column_of_stack.
  - rewrite decide_True by done. eexists. split; [reflexivity|].
    assert (Hin : ∀ k, k ∈ ca ++ filter (λ c, c ∉ ca) cb ↔ k ∈ ca ∨ k ∈ cb).
    { intros k. rewrite elem_of_app, list_elem_of_filter.
      destruct (decide (k ∈ ca)); tauto. }
    split; [|split; [exact Hin|split]].
    + simpl. apply NoDup_app. split; [assumption|]. split.
      * intros k Hk Hk'. apply list_elem_of_filter in Hk' as [Hk' _]. done.
      * by apply NoDup_filter.
    + rewrite stack_length. by rewrite !length_fmap.
    + intros k Hka Hkb. simpl.
      assert (Hk : k ∈ ca ++ filter (λ c, c ∉ ca) cb) by (apply Hin; by left).
      rewrite column_of_stack by assumption. by rewrite !column_of_reindex.
Qed.

(** Frames under [append], as the elements of a reduction. *)
Definition is_distinct_frame (x : pyobj) : Prop := ∃ d, x = PyFrame d ∧ distinct_labels d.

(** ** Selecting a column *)

(** The series that [d[k]] is when one column of [d] has the label. *)
Definition column_series (k : string) (d : DataFrame) : Series :=
  mkSeries (Some k) (column_of k d).

Lemma filter_absent (k : string) (cols : list string) :
  k ∉ cols → filter (λ c, c = k) cols = [].
Proof.
  induction cols as [|c cols IH]; intros Hk; [reflexivity|].
  apply not_elem_of_cons in Hk as [Hne Hk].
  rewrite filter_cons_False by done. by apply IH.
Qed.

Lemma filter_label (k : string) (cols : list string) :
  NoDup cols → k ∈ cols → filter (λ c, c = k) cols = [k].
Proof.
  induction 1 as [|c cols Hc Hnd IH]; intros Hk; [by apply elem_of_nil in Hk|].
  rewrite filter_cons. destruct (decide (c = k)) as [->|Hne].
  - f_equal. by apply filter_absent.
  - apply IH. apply elem_of_cons in Hk as [->|Hk]; [done|assumption].
Qed.

Lemma df_getitem_distinct (k : string) (d : DataFrame) :
  distinct_labels d → k ∈ columns d →
  df_getitem k d = Ok (OneColumn (column_series k d)).
Proof. intros Hd Hk. unfold df_getitem. by rewrite filter_label. Qed.

Lemma py_getitem_distinct (k : string) (d : DataFrame) :
  distinct_labels d → k ∈ columns d →
  py_getitem k (PyFrame d) = Ok (PySeries (column_series k d)).
Proof. intros Hd Hk. simpl. by rewrite df_getitem_distinct. Qed.

Lemma mapM_getitem_frames (k : string) (blocks : list DataFrame) :
  Forall distinct_labels blocks →
  Forall (λ d, k ∈ columns d) blocks →
  mapM (py_getitem k) (PyFrame <$> blocks) =
    Ok (PySeries <$> (column_series k <$> blocks)).
Proof.
  intros Hnd Hk. induction Hk as [|d blocks Hd _ IH]; [reflexivity|].
  apply Forall_cons_1 in Hnd as [Hnd Hnds].
  rewrite !fmap_cons, mapM_cons, (IH Hnds), py_getitem_distinct by assumption.
  reflexivity.
Qed.

(** Lists under concatenation, up to the order of their elements. *)
#[local] Instance app_assoc_Permutation {A} : Assoc (≡ₚ) (@app A).
Proof. intros x y z. by rewrite app_assoc. Qed.
#[local] Instance app_left_id_Permutation {A} : LeftId (≡ₚ) [] (@app A).
Proof. intros x. reflexivity. Qed.
#[local] Instance app_right_id_Permutation {A} : RightId (≡ₚ) [] (@app A).
Proof. intros x. by rewrite app_nil_r. Qed.

(** The cells of column [k] are all of type [t]. *)
Definition column_typed (t : ctype) (k : string) (d : DataFrame) : Prop :=
  Forall (λ v : Z * cell, has_type t v.2) (column_of k d).

(** Series named [k] with values of type [t], measured by their values. *)
Definition series_typed (t : ctype) (k : string) (x : pyobj) : Prop :=
  ∃ s, x = PySeries s ∧ name s = Some k ∧ Forall (λ v : Z * cell, has_type t v.2) (values s).

Definition values_of (x : pyobj) : list (Z * cell) :=
  match x with PySeries s => values s | _ => [] end.

Lemma append_series_typed (t : ctype) (k : string) (R : relation (list (Z * cell)))
      `{!Reflexive R} (x y : pyobj) :
  series_typed t k x → series_typed t k y →
  ∃ z, appendFrames x y = Ok z ∧ series_typed t k z ∧
       R (values_of z) (values_of x ++ values_of y).
Proof.
  intros (s & -> & Hs & Hvs) (u & -> & Hu & Hvu). eexists. split; [reflexivity|].
  simpl. rewrite (append_values_typed t) by assumption. split; [|reflexivity].
  eexists. split; [reflexivity|]. simpl. rewrite Hs, Hu, decide_True by done.
  rewrite (append_values_typed t) by assumption.
  split; [reflexivity|]. by apply Forall_app.
Qed.

Lemma total_column_series (k : string) (blocks : list DataFrame) :
  total values_of app [] (PySeries <$> (column_series k <$> blocks)) =
  concat (column_of k <$> blocks).
Proof.
  induction blocks as [|d blocks IH]; [reflexivity|].
  rewrite !fmap_cons. simpl. by rewrite IH.
Qed.

Lemma Forall_series_typed (t : ctype) (k : string) (blocks : list DataFrame) :
  Forall (column_typed t k) blocks →
  Forall (series_typed t k) (PySeries <$> (column_series k <$> blocks)).
Proof.
  intros H. apply Forall_fmap, Forall_fmap. eapply Forall_impl; [exact H|].
  intros d Hd. by eexists.
Qed.

(** Frames with distinct labels that have column [k], with cells of
    type [t], measured by that column. *)
Definition frame_with_column (t : ctype) (k : string) (d : DataFrame) : Prop :=
  distinct_labels d ∧ k ∈ columns d ∧ column_typed t k d.

Lemma append_frame_with_column (t : ctype) (k : string) (a b : DataFrame) :
  frame_with_column t k a → frame_with_column t k b →
  ∃ z, df_append a b = Ok z ∧ frame_with_column t k z ∧
       column_of k z = column_of k a ++ column_of k b.
Proof.
  intros (Ha & Hka & Hta) (Hb & Hkb & Htb).
  destruct (df_append_distinct a b Ha Hb) as (z & Hz & Hnd & Hin & _ & Hcol).
  exists z. specialize (Hcol k Hka Hkb).
  rewrite (append_values_typed t) in Hcol by assumption.
  split; [assumption|]. split; [|assumption].
  split; [assumption|]. split; [apply Hin; by left|].
  unfold column_typed. rewrite Hcol. by apply Forall_app.
Qed.

Lemma total_column_of (k : string) (blocks : list DataFrame) :
  total (column_of k) app [] blocks = concat (column_of k <$> blocks).
Proof.
  induction blocks as [|d blocks IH]; [reflexivity|].
  rewrite fmap_cons. simpl. by rewrite IH.
Qed.

Lemma getitem_concat (t : ctype) (k : string) (blocks : list DataFrame) :
  blocks ≠ [] → Forall (frame_with_column t k) blocks →
  df_concat blocks ≫= (λ d, py_getitem k (PyFrame d)) =
    Ok (PySeries (mkSeries (Some k) (concat (column_of k <$> blocks)))).
Proof.
  intros Hne Hall.
  destruct (reduce_list_measure df_append (frame_with_column t k) (column_of k)
              app [] eq (append_frame_with_column t k) blocks Hne Hall)
    as (d & Hd & (Hnd & Hk & _) & Hcol).
  rewrite total_column_of in Hcol.
  assert (Hconcat : df_concat blocks = Ok d) by (destruct blocks; [done|exact Hd]).
  rewrite Hconcat. simpl. rewrite df_getitem_distinct by assumption. simpl.
  unfold column_series. by rewrite Hcol.
Qed.

Definition select_then_collect (sched : schedule) (self : ref) (key : string) : M pyobj :=
  p ← __getitem__ self key; collect sched p.

(** The [key]-column of the direct concatenation of the blocks. *)
Definition projection_of_concat (key : string) (blocks : list DataFrame) : result pyobj :=
  d ← df_concat blocks; py_getitem key (PyFrame d).

Definition same_series_up_to_order (x y : pyobj) : Prop :=
  ∃ s t, x = PySeries s ∧ y = PySeries t ∧ series_equiv s t.

(** C1, as the code has it: on a collection of frames with distinct
    labels that all have the column [key], with cells of one type in all
    of them (text, integers of 64 bits, or floats), [__getitem__(key)]
    followed by [collect] returns, under every schedule of the runtime,
    the [key]-column of the direct concatenation of the blocks up to the
    order of the rows (both raise when there is no block); and under
    every schedule that keeps the elements in their order, however it
    groups them, it returns that column exactly. *)
Theorem select_collect_is_projection (sched : schedule) (σ : state) (self : ref)
        (rdd : RDD) (parts : list (list pyobj)) (blocks : list DataFrame)
        (key : string) (t : ctype) :
  wraps σ self rdd →
  compute rdd = Ok parts →
  concat parts = PyFrame <$> blocks →
  Forall distinct_labels blocks →
  Forall (λ d, key ∈ columns d) blocks →
  Forall (column_typed t key) blocks →
  agree same_series_up_to_order
        (select_then_collect sched self key σ).1 (projection_of_concat key blocks) ∧
  (order_preserving sched →
   agree eq (select_then_collect sched self key σ).1 (projection_of_concat key blocks)).
Proof.
  intros Hw Hparts Hblocks Hnd Hkey Htyped.
  assert (Hrun : (select_then_collect sched self key σ).1 =
                 reduce sched appendFrames (PipelinedRDD rdd (mapM (py_getitem key)) false)).
  { unfold select_then_collect, mbind, M_bind.
    rewrite (getitem_eq _ _ _ _ Hw).
    by rewrite (collect_eq _ _ _ _ (constructed_wraps _ σ)). }
  pose proof (mapM_getitem_frames key blocks Hnd Hkey) as Helems.
  rewrite <- Hblocks in Helems.
  rewrite !Hrun, !(reduce_mapped_Ok _ _ _ _ _ _ _ Hparts Helems).
  destruct (decide (blocks = [])) as [->|Hne].
  { simpl. rewrite !combine_nil. simpl. done. }
  assert (Hne' : PySeries <$> (column_series key <$> blocks) ≠ []).
  { destruct blocks; [done|discriminate]. }
  assert (Hall : Forall (frame_with_column t key) blocks).
  { apply Forall_forall. intros d Hd. repeat split.
    - by apply (proj1 (Forall_forall _ _) Hnd).
    - by apply (proj1 (Forall_forall _ _) Hkey).
    - by apply (proj1 (Forall_forall _ _) Htyped). }
  unfold projection_of_concat. rewrite (getitem_concat t key blocks Hne Hall).
  split.
  - destruct (schedule_measure appendFrames (series_typed t key) values_of app []
                (≡ₚ) (append_series_typed t key (≡ₚ))
                (sched (length <$> parts)) _ Hne' (Forall_series_typed t key blocks Htyped))
      as (r & -> & (s & -> & Hname & _) & Hvals).
    simpl. eexists _, _. split; [reflexivity|]. split; [reflexivity|].
    split; [exact Hname|]. simpl in Hvals |- *.
    by rewrite Hvals, total_column_series.
  - intros Hord.
    destruct (adjacent_measure appendFrames (series_typed t key) values_of app []
                eq (append_series_typed t key eq)
                (sched (length <$> parts)) _ (Hord _) Hne'
                (Forall_series_typed t key blocks Htyped))
      as (r & -> & (s & -> & Hname & _) & Hvals).
    simpl in Hvals |- *. rewrite total_column_series in Hvals.
    destruct s as [n vs]. simpl in *. by subst.
Qed.

(** Two one-row frames of the documentation of [__getitem__], held one
    per partition or together in one partition. *)
Definition tea : DataFrame :=
  mkFrame ["magic"; "thing"] [(0, [CStr "tea"; CStr "happy"])].
Definition water : DataFrame :=
  mkFrame ["magic"; "thing"] [(0, [CStr "water"; CStr "sad"])].
Definition tea_water : RDD := ParallelCollection [[PyFrame tea]; [PyFrame water]].
Definition tea_water_together : RDD := ParallelCollection [[PyFrame tea; PyFrame water]].

(** The three frames of the documentation, the last two in one
    partition. *)
Definition coffee : DataFrame :=
  mkFrame ["magic"; "thing"] [(0, [CStr "coffee"; CStr "happiest"])].
Definition tea_water_coffee : RDD :=
  ParallelCollection [[PyFrame tea]; [PyFrame water; PyFrame coffee]].

(** A runtime that combines the second element of the collection with the
    first, the later one on the left: the result of the second partition
    has arrived before that of the first, or the elements of a partition
    are accumulated by [f(obj, acc)]. *)
Definition newest_first : schedule := λ _, [(1%nat, 0%nat)].

Definition first_ref : ref := fresh (dom (∅ : gmap ref instance)).

(** On the wrapper of [rdd], a collection of the blocks [tea] and
    [water], selecting [thing] and collecting under [sched] returns the
    rows [sad, happy], which is not the column of the direct
    concatenation. *)
Definition sad_before_happy (sched : schedule) (rdd : RDD) : Prop :=
  let σ := constructed rdd (mkState ∅ 0) in
  wraps σ first_ref rdd ∧
  (∃ parts, compute rdd = Ok parts ∧ concat parts = PyFrame <$> [tea; water]) ∧
  (select_then_collect sched first_ref "thing" σ).1 =
    Ok (PySeries (mkSeries (Some "thing") [(0, CStr "sad"); (0, CStr "happy")])) ∧
  (select_then_collect sched first_ref "thing" σ).1 ≠
    projection_of_concat "thing" [tea; water].

(** C1 as stated, an equality for whatever order the runtime reduces in,
    fails: [append] is not commutative.  Both blocks have the column
    [thing], whose projection out of the direct concatenation is
    [happy, sad].  With the blocks in two partitions a runtime that
    combines the result of the second with that of the first returns
    [sad, happy]; with both blocks in one partition, so does the runtime
    that accumulates a partition by [f(obj, acc)]. *)
Lemma select_collect_not_exact :
  Forall (λ d, "thing" ∈ columns d) [tea; water] ∧
  projection_of_concat "thing" [tea; water] =
    Ok (PySeries (mkSeries (Some "thing") [(0, CStr "happy"); (0, CStr "sad")])) ∧
  sad_before_happy newest_first tea_water ∧
  sad_before_happy accumulate_then_driver tea_water_together.
Proof.
  assert (Hrhs : projection_of_concat "thing" [tea; water] =
                 Ok (PySeries (mkSeries (Some "thing")
                                        [(0, CStr "happy"); (0, CStr "sad")])))
    by (vm_compute; reflexivity).
  assert (Hany : ∀ sched rdd parts,
             compute rdd = Ok parts → concat parts = PyFrame <$> [tea; water] →
             reduce sched appendFrames
                    (PipelinedRDD rdd (mapM (py_getitem "thing")) false) =
               Ok (PySeries (mkSeries (Some "thing")
                                      [(0, CStr "sad"); (0, CStr "happy")])) →
             sad_before_happy sched rdd).
  { intros sched rdd parts Hparts Hblocks Hred. unfold sad_before_happy.
    pose proof (constructed_wraps rdd (mkState ∅ 0)) as Hw.
    assert (Hlhs : (select_then_collect sched first_ref "thing"
                      (constructed rdd (mkState ∅ 0))).1 =
                   Ok (PySeries (mkSeries (Some "thing")
                                          [(0, CStr "sad"); (0, CStr "happy")]))).
    { unfold select_then_collect, mbind, M_bind.
      rewrite (getitem_eq _ _ _ _ Hw).
      rewrite (collect_eq _ _ _ _ (constructed_wraps _ _)). exact Hred. }
    split; [exact Hw|]. split; [by exists parts|]. split; [exact Hlhs|].
    rewrite Hlhs, Hrhs. discriminate. }
  split; [repeat constructor; set_solver|]. split; [exact Hrhs|].
  split; eapply Hany; reflexivity.
Qed.

Lemma partitions_then_driver_order_preserving : order_preserving partitions_then_driver.
Proof.
  intros sizes. unfold partitions_then_driver. generalize 0%nat.
  induction sizes as [|[|n] sizes IH]; intros p; simpl.
  - constructor.
  - apply IH.
  - apply Forall_app. split; [by apply Forall_replicate|apply IH].
Qed.

Lemma select_collect_is_projection_witness :
  let σ := constructed tea_water_coffee (mkState ∅ 0) in
  agree same_series_up_to_order
        (select_then_collect partitions_then_driver first_ref "thing" σ).1
        (projection_of_concat "thing" [tea; water; coffee]) ∧
  agree eq (select_then_collect partitions_then_driver first_ref "thing" σ).1
        (projection_of_concat "thing" [tea; water; coffee]).
Proof.
  intros σ.
  destruct (select_collect_is_projection partitions_then_driver σ first_ref
              tea_water_coffee [[PyFrame tea]; [PyFrame water; PyFrame coffee]]
              [tea; water; coffee] "thing" TText) as [Hany Hexact].
  - apply (constructed_wraps tea_water_coffee (mkState ∅ 0)).
  - reflexivity.
  - reflexivity.
  - repeat constructor; compute_done.
  - repeat constructor; compute_done.
  - repeat constructor.
  - split; [exact Hany|]. apply Hexact, partitions_then_driver_order_preserving.
Defined.

(** Under the runtime that folds every partition before the driver folds
    the results, [water] and [coffee] are appended first and [tea] with
    their series: the column is that of the direct concatenation. *)
Lemma select_collect_by_partitions :
  let σ := constructed tea_water_coffee (mkState ∅ 0) in
  partitions_then_driver [1; 2]%nat = [(1, 2)]%nat ∧
  (select_then_collect partitions_then_driver first_ref "thing" σ).1 =
    Ok (PySeries (mkSeries (Some "thing")
                           [(0, CStr "happy"); (0, CStr "sad"); (0, CStr "happiest")])) ∧
  projection_of_concat "thing" [tea; water; coffee] =
    Ok (PySeries (mkSeries (Some "thing")
                           [(0, CStr "happy"); (0, CStr "sad"); (0, CStr "happiest")])).
Proof.
  intros σ. split; [reflexivity|].
  assert (Hw : wraps σ first_ref tea_water_coffee)
    by apply (constructed_wraps tea_water_coffee (mkState ∅ 0)).
  split; [|vm_compute; reflexivity].
  unfold select_then_collect, mbind, M_bind.
  rewrite (getitem_eq _ _ _ _ Hw).
  rewrite (collect_eq _ _ _ _ (constructed_wraps _ σ)).
  vm_compute. reflexivity.
Qed.

(** ** Frames of a schema *)

(** The cells of every row have the types that the schema [τ] gives
    to the labels; every row has one cell for every label. *)
Definition row_typed (τ : string → ctype) (labels : list string) (r : row) : Prop :=
  Forall2 (λ c x, has_type (τ c) x) labels r.2.

Definition frame_typed (τ : string → ctype) (d : DataFrame) : Prop :=
  Forall (row_typed τ (columns d)) (rows d).

Lemma cell_at_typed τ (labels : list string) (r : list cell) (k : string) :
  Forall2 (λ c x, has_type (τ c) x) labels r → k ∈ labels →
  has_type (τ k) (cell_at labels r k).
Proof.
  induction 1 as [|c x labels r Hx _ IH]; intros Hk; [by apply elem_of_nil in Hk|].
  simpl. destruct (decide (c = k)) as [->|Hne]; [done|].
  apply IH. apply elem_of_cons in Hk as [->|Hk]; done.
Qed.

Lemma reindex_typed τ (old new : list string) (r : row) :
  row_typed τ old r → (∀ k, k ∈ new → k ∈ old) → row_typed τ new (reindex old new r).
Proof.
  intros Hr Hsub. unfold row_typed, reindex. simpl.
  apply Forall2_fmap_r, Forall_Forall2_diag, Forall_forall.
  intros k Hk. apply cell_at_typed; auto.
Qed.

Lemma cells_reindex_id (cs : list string) (r : list cell) :
  NoDup cs → length r = length cs → cell_at cs r <$> cs = r.
Proof.
  intros Hnd. revert r. induction Hnd as [|c cs Hc Hnd IH]; intros [|x r] Hlen; try done.
  rewrite fmap_cons. cbn [cell_at]. rewrite decide_True by done. f_equal.
  transitivity (cell_at cs r <$> cs); [|apply IH; simpl in Hlen; lia].
  apply list_fmap_ext. intros i k Hk. cbn [cell_at].
  rewrite decide_False; [done|]. intros ->. apply Hc.
  by eapply list_elem_of_lookup_2.
Qed.

Lemma reindex_id (cs : list string) (r : row) :
  NoDup cs → length r.2 = length cs → reindex cs cs r = r.
Proof. intros Hnd Hlen. destruct r as [i r]. unfold reindex. simpl. by rewrite cells_reindex_id. Qed.

Lemma reindex_reindex (old mid new : list string) (r : row) :
  (∀ k, k ∈ new → k ∈ mid) →
  reindex mid new (reindex old mid r) = reindex old new r.
Proof.
  intros Hsub. unfold reindex. simpl. f_equal.
  apply list_fmap_ext. intros i k Hk. apply cell_at_reindex, Hsub.
  by eapply list_elem_of_lookup_2.
Qed.

Lemma row_typed_length τ (labels : list string) (r : row) :
  row_typed τ labels r → length r.2 = length labels.
Proof. intros H. symmetry. by eapply Forall2_length. Qed.

Lemma col_typed τ (labels : list string) (rs : list row) (j : nat) (c : string) :
  Forall (row_typed τ labels) rs → labels !! j = Some c →
  Forall (has_type (τ c)) (col j rs).
Proof.
  intros Hrs Hc. unfold col. apply Forall_fmap. eapply Forall_impl; [exact Hrs|].
  intros r Hr. simpl.
  destruct (Forall2_lookup_l _ _ _ _ _ Hr Hc) as (x & -> & Hx). exact Hx.
Qed.

(** Rows of one schema are stacked as they are. *)
Lemma stack_typed τ (cs : list string) (ra rb : list row) :
  Forall (row_typed τ cs) ra → Forall (row_typed τ cs) rb →
  stack cs ra rb = mkFrame cs (ra ++ rb).
Proof.
  intros Ha Hb. unfold stack. f_equal. apply retype_id.
  intros r j x Hr Hx Hj Hflag.
  assert (Hr' : row_typed τ cs r).
  { apply elem_of_app in Hr as [Hr|Hr];
      [by apply (proj1 (Forall_forall _ _) Ha)|by apply (proj1 (Forall_forall _ _) Hb)]. }
  destruct (Forall2_lookup_r _ _ _ _ _ Hr' Hx) as (c & Hc & Hcx).
  apply (needs_upcast_typed (τ c) (col j ra) (col j rb)); try done.
  - by apply (col_typed τ cs).
  - by apply (col_typed τ cs).
Qed.

(** [applymap] finds the types of a frame of a schema as they are. *)
Lemma infer_types_typed τ (d : DataFrame) : frame_typed τ d → infer_types d = d.
Proof.
  intros Hd. destruct d as [cs rs]. unfold infer_types, frame_typed in *. simpl in *.
  f_equal. apply retype_id. intros r j x Hr Hx Hj Hflag.
  assert (Hr' : row_typed τ cs r) by (by apply (proj1 (Forall_forall _ _) Hd)).
  destruct (Forall2_lookup_r _ _ _ _ _ Hr' Hx) as (c & Hc & Hcx).
  apply (not_mixed_typed (τ c) (col j rs)); try done.
  by apply (col_typed τ cs).
Qed.

(** Frames with distinct labels, those of [cols] in an order that is one
    of [orders], and with the types of the schema [τ]. *)
Definition conforms (τ : string → ctype) (cols : list string) (orders : list (list string))
           (d : DataFrame) : Prop :=
  distinct_labels d ∧ columns d ≡ₚ cols ∧ columns d ∈ orders ∧ frame_typed τ d.

(** The rows of a frame, their cells in the order [cols]. *)
Definition relaid (cols : list string) (d : DataFrame) : list row :=
  reindex (columns d) cols <$> rows d.

Lemma filter_all_known (ca cb : list string) :
  (∀ k, k ∈ cb → k ∈ ca) → filter (λ c, c ∉ ca) cb = [].
Proof.
  induction cb as [|c cb IH]; intros H; [reflexivity|].
  rewrite filter_cons_False by (intros Hc; apply Hc, H; left).
  apply IH. intros k Hk. apply H. by right.
Qed.

Lemma append_conforms τ cols orders (a b : DataFrame) :
  conforms τ cols orders a → conforms τ cols orders b →
  ∃ z, df_append a b = Ok z ∧ conforms τ cols orders z ∧
       relaid cols z = relaid cols a ++ relaid cols b.
Proof.
  intros (Hnda & Hpa & Hoa & Hta) (Hndb & Hpb & Hob & Htb).
  destruct a as [ca ra], b as [cb rb].
  unfold distinct_labels, frame_typed, relaid, df_append in *. simpl in *.
  destruct (decide (ca = cb)) as [->|Hne].
  - rewrite (stack_typed τ) by assumption. eexists. split; [reflexivity|].
    split; [|simpl; apply fmap_app].
    repeat split; try assumption. simpl. by apply Forall_app.
  - rewrite decide_True by done.
    assert (Hsub : ∀ k, k ∈ cb → k ∈ ca).
    { intros k Hk. rewrite Hpa, <- Hpb. exact Hk. }
    rewrite (filter_all_known ca cb Hsub), app_nil_r.
    assert (Hra : reindex ca ca <$> ra = ra).
    { rewrite <- (list_fmap_id ra) at 2. apply list_fmap_ext. intros i r Hr.
      apply reindex_id; [assumption|]. apply (row_typed_length τ).
      apply (proj1 (Forall_forall _ _) Hta). by eapply list_elem_of_lookup_2. }
    assert (Htb' : Forall (row_typed τ ca) (reindex cb ca <$> rb)).
    { apply Forall_fmap. eapply Forall_impl; [exact Htb|].
      intros r Hr. apply reindex_typed; [assumption|].
      intros k Hk. rewrite Hpb, <- Hpa. exact Hk. }
    rewrite Hra, (stack_typed τ) by assumption.
    eexists. split; [reflexivity|]. split.
    + repeat split; try assumption. simpl. by apply Forall_app.
    + simpl. rewrite fmap_app. f_equal. rewrite <- list_fmap_compose.
      apply list_fmap_ext. intros i r _. simpl. apply reindex_reindex.
      intros k Hk. rewrite Hpa. exact Hk.
Qed.

(** Two frames of a schema with the same rows once relaid are the same
    table, up to the order of the rows and of the columns. *)
Lemma relaid_table_equiv τ τ' cols orders (a b : DataFrame) :
  conforms τ cols orders a → conforms τ' cols orders b →
  relaid cols a ≡ₚ relaid cols b → table_equiv a b.
Proof.
  intros (Hnda & Hpa & _ & Hta) (Hndb & Hpb & _ & Htb) Hrows.
  split; [by rewrite Hpa, Hpb|].
  assert (Hb : reindex cols (columns b) <$> relaid cols b = rows b).
  { unfold relaid. rewrite <- list_fmap_compose.
    rewrite <- (list_fmap_id (rows b)) at 2. apply list_fmap_ext. intros i r Hr.
    simpl. rewrite reindex_reindex by (intros k Hk; by rewrite <- Hpb).
    apply reindex_id; [assumption|]. apply (row_typed_length τ').
    apply (proj1 (Forall_forall _ _) Htb). by eapply list_elem_of_lookup_2. }
  assert (Ha : reindex cols (columns b) <$> relaid cols a =
               reindex (columns a) (columns b) <$> rows a).
  { unfold relaid. rewrite <- list_fmap_compose. apply list_fmap_ext. intros i r _.
    simpl. apply reindex_reindex. intros k Hk. by rewrite <- Hpb. }
  by rewrite <- Ha, <- Hb, Hrows.
Qed.

Lemma table_frame_equiv τ (a b : DataFrame) :
  distinct_labels a → frame_typed τ a → columns a = columns b →
  table_equiv a b → frame_equiv a b.
Proof.
  intros Hnd Hta Hcols [_ Hrows]. split; [assumption|].
  rewrite <- Hcols in Hrows. rewrite <- Hrows.
  assert (H : reindex (columns a) (columns a) <$> rows a = rows a); [|by rewrite H].
  rewrite <- (list_fmap_id (rows a)) at 2.
  apply list_fmap_ext. intros i r Hr.
  apply reindex_id; [assumption|]. apply (row_typed_length τ).
  apply (proj1 (Forall_forall _ _) Hta). by eapply list_elem_of_lookup_2.
Qed.

(** ** Mapping over the cells *)

Lemma mapM_agree {A A' B B'} (F : A → result B) (G : A' → result B') (h : A → A')
      (R : B → B' → Prop) (l : list A) :
  Forall (λ x, agree R (F x) (G (h x))) l →
  agree (Forall2 R) (mapM F l) (mapM G (h <$> l)).
Proof.
  induction 1 as [|x l Hx _ IH]; [by constructor|].
  rewrite fmap_cons, !mapM_cons.
  destruct (F x), (G (h x)); simpl in *; try done.
  destruct (mapM F l), (mapM G (h <$> l)); simpl in *; try done.
  by constructor.
Qed.

Lemma mapM_Err_elem {A B} (f : A → result B) (l : list A) (x : A) :
  x ∈ l → is_Err (f x) → is_Err (mapM f l).
Proof.
  induction l as [|a l IH]; intros Hx He; [by apply elem_of_nil in Hx|].
  rewrite mapM_cons. apply elem_of_cons in Hx as [<-|Hx].
  - destruct He as [e ->]. by exists e.
  - destruct (f a); simpl; [|by eexists].
    destruct (IH Hx He) as [e' ->]. by exists e'.
Qed.

Lemma mapM_Err_inv {A B} (f : A → result B) (l : list A) :
  is_Err (mapM f l) → ∃ x, x ∈ l ∧ is_Err (f x).
Proof.
  induction l as [|a l IH]; [by intros [e He]|]. rewrite mapM_cons.
  destruct (f a) as [b|e'] eqn:Ha; simpl.
  - destruct (mapM f l) as [k|e'']; simpl; [by intros [e He]|]. intros _.
    destruct IH as (x & Hx & He); [by eexists|].
    exists x. split; [by right|assumption].
  - intros _. exists a. split; [left|by exists e'].
Qed.

Lemma mapM_fmap_Ok {A B C} (f : B → result C) (h : A → B) (h' : A → C) (l : list A) :
  (∀ k, k ∈ l → f (h k) = Ok (h' k)) → mapM f (h <$> l) = Ok (h' <$> l).
Proof.
  induction l as [|a l IH]; intros H; [reflexivity|].
  rewrite !fmap_cons, mapM_cons, (H a) by left. simpl.
  rewrite IH by (intros k Hk; apply H; by right). reflexivity.
Qed.

Lemma Forall2_fmap_eq {A B} (h : A → B) (l : list A) (k : list B) :
  Forall2 (λ x y, h x = y) l k → h <$> l = k.
Proof. induction 1 as [|x y l k Hxy _ IH]; [reflexivity|]. by rewrite fmap_cons, Hxy, IH. Qed.

Lemma cell_at_lookup (cs : list string) (r : list cell) (j : nat) (c : string) :
  NoDup cs → cs !! j = Some c → cell_at cs r c = default CNaN (r !! j).
Proof.
  intros Hnd. revert r j. induction Hnd as [|c' cs Hc' Hnd IH]; intros r j Hj; [done|].
  destruct r as [|x r]; [reflexivity|]. destruct j as [|j]; simpl in *.
  - injection Hj as ->. by rewrite decide_True.
  - rewrite decide_False; [by apply IH|]. intros ->. apply Hc'.
    by eapply list_elem_of_lookup_2.
Qed.

Lemma cell_at_mapM f (cs : list string) (r r' : list cell) (k : string) :
  mapM f r = Ok r' → k ∈ cs → length r = length cs →
  f (cell_at cs r k) = Ok (cell_at cs r' k).
Proof.
  intros Hr%mapM_Ok_Forall2 Hk Hlen.
  destruct (cell_at_pos cs k Hk) as (j & Hj & Hcell). rewrite !Hcell.
  destruct (lookup_lt_is_Some_2 r j) as [x Hx]; [lia|].
  destruct (Forall2_lookup_l _ _ _ _ _ Hr Hx) as (y & Hy & Hxy).
  by rewrite Hx, Hy.
Qed.

(** Mapping a row and laying it out on other columns, in either order. *)
Lemma row_applymap_relaid f (cd cols : list string) (r : row) :
  NoDup cd → cd ≡ₚ cols → length r.2 = length cd →
  agree (λ r' s', reindex cd cols r' = s')
        (row_applymap f r) (row_applymap f (reindex cd cols r)).
Proof.
  intros Hnd Hp Hlen. destruct r as [i r]. unfold row_applymap, reindex. simpl in *.
  destruct (mapM f r) as [r'|e] eqn:Hr; simpl.
  - rewrite (mapM_fmap_Ok f (cell_at cd r) (cell_at cd r')); [reflexivity|].
    intros k Hk. apply cell_at_mapM; [assumption| |assumption]. by rewrite Hp.
  - destruct (mapM_Err_inv f r) as (x & Hx & He); [by exists e|].
    apply list_elem_of_lookup_1 in Hx as [j Hj].
    destruct (lookup_lt_is_Some_2 cd j) as [c Hc];
      [rewrite <- Hlen; by eapply lookup_lt_Some|].
    assert (Hin : x ∈ cell_at cd r <$> cols).
    { apply list_elem_of_fmap. exists c. split.
      - by rewrite (cell_at_lookup cd r j c Hnd Hc), Hj.
      - rewrite <- Hp. by eapply list_elem_of_lookup_2. }
    destruct (mapM_Err_elem f _ x Hin He) as [e' ->]. done.
Qed.

(** [f] sends a cell of the type that [τ] gives to a label of [cols]
    to a cell of the type that [τ'] gives to it, when it returns. *)
Definition maps_schema (f : cell → result cell) (τ τ' : string → ctype)
           (cols : list string) : Prop :=
  ∀ c x y, c ∈ cols → has_type (τ c) x → f x = Ok y → has_type (τ' c) y.

Lemma row_applymap_typed f τ τ' (labels : list string) (r r' : row) :
  maps_schema f τ τ' labels → row_typed τ labels r →
  row_applymap f r = Ok r' → row_typed τ' labels r'.
Proof.
  intros Hf Hr Hmap. destruct r as [i r]. unfold row_applymap, row_typed in *.
  simpl in *. destruct (mapM f r) as [k|] eqn:Hk; [|discriminate].
  injection Hmap as <-. simpl. apply mapM_Ok_Forall2 in Hk.
  apply Forall2_same_length_lookup. split.
  - rewrite (Forall2_length _ _ _ Hr). by eapply Forall2_length.
  - intros j c y Hc Hy.
    destruct (Forall2_lookup_l _ _ _ _ _ Hr Hc) as (x & Hx & Hcx).
    destruct (Forall2_lookup_l _ _ _ _ _ Hk Hx) as (y' & Hy' & Hxy).
    assert (y' = y) as -> by congruence.
    apply (Hf c x y); [by eapply list_elem_of_lookup_2|assumption..].
Qed.

(** [applymap] on a frame of a schema, and the function on its rows
    once relaid: both raise, or the frame returned conforms to the schema
    of the results and its rows once relaid are those rows. *)
Lemma df_applymap_relaid f τ τ' cols orders (d : DataFrame) :
  conforms τ cols orders d → maps_schema f τ τ' cols →
  agree (λ d' rs', conforms τ' cols orders d' ∧ relaid cols d' = rs')
        (df_applymap f d) (mapM (row_applymap f) (relaid cols d)).
Proof.
  intros (Hnd & Hp & Ho & Ht) Hf. destruct d as [cd rs].
  unfold distinct_labels, frame_typed, relaid, df_applymap, map_cells in *. simpl in *.
  assert (Hrows : Forall (λ r, agree (λ r' s', reindex cd cols r' = s')
                                 (row_applymap f r) (row_applymap f (reindex cd cols r))) rs).
  { eapply Forall_impl; [exact Ht|]. intros r Hr.
    apply row_applymap_relaid; [assumption..|]. by apply (row_typed_length τ). }
  apply mapM_agree in Hrows.
  destruct (mapM (row_applymap f) rs) as [rs'|e] eqn:Hrs;
    destruct (mapM (row_applymap f) (reindex cd cols <$> rs)) as [ss|e'];
    simpl in *; try done.
  apply Forall2_fmap_eq in Hrows.
  assert (Ht' : frame_typed τ' (mkFrame cd rs')).
  { unfold frame_typed. simpl. apply mapM_Ok_Forall2 in Hrs.
    apply Forall_forall. intros r' Hr'.
    apply list_elem_of_lookup_1 in Hr' as [j Hj].
    destruct (Forall2_lookup_r _ _ _ _ _ Hrs Hj) as (r & Hr & Hmap).
    apply (row_applymap_typed f τ τ' cd r r'); [|..|assumption].
    - intros c x y Hc. apply Hf. by rewrite <- Hp.
    - apply (proj1 (Forall_forall _ _) Ht). by eapply list_elem_of_lookup_2. }
  pose proof (infer_types_typed τ' _ Ht') as Hinf.
  unfold infer_types in Hinf. simpl in Hinf. injection Hinf as Hinf.
  rewrite Hinf, (infer_types_typed τ' _ Ht'). by repeat split.
Qed.

Lemma mapM_applymap_frames f (blocks : list DataFrame) :
  mapM (py_applymap f) (PyFrame <$> blocks) =
  (fmap PyFrame : list DataFrame → list pyobj) <$> mapM (df_applymap f) blocks.
Proof.
  induction blocks as [|d blocks IH]; [reflexivity|].
  rewrite fmap_cons, !mapM_cons, IH. simpl.
  destruct (df_applymap f d); simpl; [|reflexivity].
  destruct (mapM (df_applymap f) blocks); reflexivity.
Qed.

(** Frames of a schema, measured by their rows once relaid. *)
Definition is_conforming τ (cols : list string) (orders : list (list string))
           (x : pyobj) : Prop :=
  ∃ d, x = PyFrame d ∧ conforms τ cols orders d.

Definition relaid_of (cols : list string) (x : pyobj) : list row :=
  match x with PyFrame d => relaid cols d | _ => [] end.

Lemma append_is_conforming τ cols orders (R : relation (list row)) `{!Reflexive R}
      (x y : pyobj) :
  is_conforming τ cols orders x → is_conforming τ cols orders y →
  ∃ z, appendFrames x y = Ok z ∧ is_conforming τ cols orders z ∧
       R (relaid_of cols z) (relaid_of cols x ++ relaid_of cols y).
Proof.
  intros (a & -> & Ha) (b & -> & Hb).
  destruct (append_conforms τ cols orders a b Ha Hb) as (z & Hz & Hcz & Hrows).
  exists (PyFrame z). unfold appendFrames. simpl. rewrite Hz.
  split; [reflexivity|]. split; [by exists z|]. simpl. by rewrite Hrows.
Qed.

Lemma total_relaid_of cols (blocks : list DataFrame) :
  total (relaid_of cols) app [] (PyFrame <$> blocks) = concat (relaid cols <$> blocks).
Proof.
  induction blocks as [|d blocks IH]; [reflexivity|].
  rewrite !fmap_cons. simpl. by rewrite IH.
Qed.

Lemma total_relaid cols (blocks : list DataFrame) :
  total (relaid cols) app [] blocks = concat (relaid cols <$> blocks).
Proof.
  induction blocks as [|d blocks IH]; [reflexivity|].
  rewrite fmap_cons. simpl. by rewrite IH.
Qed.

Lemma Forall_is_conforming τ cols orders (blocks : list DataFrame) :
  Forall (conforms τ cols orders) blocks →
  Forall (is_conforming τ cols orders) (PyFrame <$> blocks).
Proof.
  intros H. apply Forall_fmap. eapply Forall_impl; [exact H|].
  intros d Hd. by exists d.
Qed.

(** The direct concatenation of frames of a schema. *)
Lemma df_concat_conforms τ cols orders (blocks : list DataFrame) :
  blocks ≠ [] → Forall (conforms τ cols orders) blocks →
  ∃ d, df_concat blocks = Ok d ∧ conforms τ cols orders d ∧
       relaid cols d = concat (relaid cols <$> blocks).
Proof.
  intros Hne Hall.
  destruct (reduce_list_measure df_append (conforms τ cols orders) (relaid cols)
              app [] eq (append_conforms τ cols orders) blocks Hne Hall)
    as (d & Hd & Hcd & Hrows).
  rewrite total_relaid in Hrows. exists d.
  split; [by destruct blocks|]. by split.
Qed.

(** The reduction of frames of a schema by [appendFrames], under any
    steps of the runtime. *)
Lemma reduce_conforming τ cols orders steps (blocks : list DataFrame) :
  blocks ≠ [] → Forall (conforms τ cols orders) blocks →
  ∃ d, (vals ← combine appendFrames steps (PyFrame <$> blocks);
        reduce_list appendFrames vals) = Ok (PyFrame d) ∧
       conforms τ cols orders d ∧
       relaid cols d ≡ₚ concat (relaid cols <$> blocks).
Proof.
  intros Hne Hall.
  assert (Hne' : PyFrame <$> blocks ≠ []) by (by destruct blocks).
  destruct (schedule_measure appendFrames (is_conforming τ cols orders)
              (relaid_of cols) app [] (≡ₚ) (append_is_conforming τ cols orders (≡ₚ))
              steps _ Hne' (Forall_is_conforming τ cols orders blocks Hall))
    as (r & Hr & (d & -> & Hd) & Hrows).
  exists d. split; [exact Hr|]. split; [exact Hd|].
  simpl in Hrows. by rewrite Hrows, total_relaid_of.
Qed.

Lemma agree_impl {A B} (R R' : A → B → Prop) (x : result A) (y : result B) :
  (∀ a b, R a b → R' a b) → agree R x y → agree R' x y.
Proof. intros H. destruct x, y; simpl; auto. Qed.

(** [f] applied to every cell of the direct concatenation of the blocks. *)
Definition map_of_concat (f : cell → result cell) (blocks : list DataFrame) : result pyobj :=
  d ← df_concat blocks; py_applymap f (PyFrame d).

Definition same_frame_up_to_order (x y : pyobj) : Prop :=
  ∃ a b, x = PyFrame a ∧ y = PyFrame b ∧ frame_equiv a b.

Definition same_table_up_to_order (x y : pyobj) : Prop :=
  ∃ a b, x = PyFrame a ∧ y = PyFrame b ∧ table_equiv a b.

(** Mapping the blocks and collecting, and mapping the direct
    concatenation: both raise, or both return frames of the schema of the
    results with the same rows once relaid, up to their order. *)
Lemma applymap_collect_relaid (sched : schedule) (σ : state) (self : ref)
      (rdd : RDD) (parts : list (list pyobj)) (blocks : list DataFrame)
      (cols : list string) (orders : list (list string)) (τ τ' : string → ctype)
      (f : cell → result cell) (kwargs : gmap string bool) :
  wraps σ self rdd →
  compute rdd = Ok parts →
  concat parts = PyFrame <$> blocks →
  Forall (conforms τ cols orders) blocks →
  maps_schema f τ τ' cols →
  dom kwargs ⊆ ({[ "preservesPartitioning" ]} : gset string) →
  agree (λ x y, ∃ a b, x = PyFrame a ∧ y = PyFrame b ∧
                       conforms τ' cols orders a ∧ conforms τ' cols orders b ∧
                       relaid cols a ≡ₚ relaid cols b)
        (applymap_then_collect sched self f kwargs σ).1 (map_of_concat f blocks).
Proof.
  intros Hw Hparts Hblocks Hall Hf Hkw.
  destruct (map_valid_kwargs (py_applymap f) kwargs rdd Hkw) as [b Hmap].
  unfold applymap_then_collect, mbind, M_bind.
  rewrite (applymap_eq _ _ _ _ _ _ Hw Hmap).
  rewrite (collect_eq _ _ _ _ (constructed_wraps _ σ)). simpl.
  pose proof (mapM_applymap_frames f blocks) as Helems. rewrite <- Hblocks in Helems.
  destruct (decide (blocks = [])) as [->|Hne].
  { simpl in Helems. rewrite (reduce_mapped_Ok _ _ _ _ _ _ _ Hparts Helems).
    by rewrite combine_nil. }
  unfold map_of_concat.
  destruct (df_concat_conforms τ cols orders blocks Hne Hall) as (D & -> & HD & Hrows).
  pose proof (df_applymap_relaid f τ τ' cols orders D HD Hf) as Hwhole.
  rewrite Hrows, <- mapM_concat in Hwhole.
  assert (Hparts' : agree (Forall2 (λ d' rs', conforms τ' cols orders d' ∧
                                              relaid cols d' = rs'))
                          (mapM (df_applymap f) blocks)
                          (mapM (mapM (row_applymap f)) (relaid cols <$> blocks))).
  { apply mapM_agree. eapply Forall_impl; [exact Hall|].
    intros d Hd. by apply (df_applymap_relaid f τ τ'). }
  simpl.
  destruct (mapM (df_applymap f) blocks) as [blocks'|e] eqn:Hmapped;
    destruct (mapM (mapM (row_applymap f)) (relaid cols <$> blocks)) as [rss|e'];
    simpl in *; try done.
  - rewrite (reduce_mapped_Ok _ _ _ _ _ _ _ Hparts Helems).
    destruct (df_applymap f D) as [d2|]; simpl in *; [|done].
    destruct Hwhole as [Hd2 Hrows2].
    assert (Hall' : Forall (conforms τ' cols orders) blocks').
    { clear -Hparts'. induction Hparts' as [|? ? ? ? [? _] _ IH]; by constructor. }
    assert (Hrss : relaid cols <$> blocks' = rss).
    { clear -Hparts'. induction Hparts' as [|? ? ? ? [_ ?] _ IH]; [done|].
      rewrite fmap_cons. by f_equal. }
    assert (Hne' : blocks' ≠ []).
    { apply mapM_length in Hmapped. destruct blocks, blocks'; done. }
    destruct (reduce_conforming τ' cols orders (sched (length <$> parts)) blocks'
                Hne' Hall') as (d1 & -> & Hd1 & Hrows1).
    exists d1, d2. split; [reflexivity|]. split; [reflexivity|].
    split; [assumption|]. split; [assumption|].
    by rewrite Hrows1, Hrss, Hrows2.
  - destruct (reduce_mapped_Err sched appendFrames rdd parts (py_applymap f) b Hparts)
      as [e'' ->]; [rewrite Helems; by exists e|].
    by destruct (df_applymap f D).
Qed.

(** C2, as the code has it: on a collection of frames with distinct
    labels, the same for all of them in whatever order, and with cells
    of the types of a schema (one type for each label: text, integers of
    64 bits, or floats), for every function [f] on cells whose results
    are of one type for each label, and under every schedule of the
    runtime, [applymap(f)] followed by [collect] returns the table that
    [f] applied to every cell of the direct concatenation of the blocks
    is, up to the order of the rows and of the columns; both raise when
    [f] raises on a cell or there is no block.  When the labels are in
    the same order in all blocks, the two frames have the same columns
    and the same rows up to their order. *)
Theorem applymap_collect_is_map (sched : schedule) (σ : state) (self : ref)
        (rdd : RDD) (parts : list (list pyobj)) (blocks : list DataFrame)
        (cols : list string) (τ τ' : string → ctype)
        (f : cell → result cell) (kwargs : gmap string bool) :
  wraps σ self rdd →
  compute rdd = Ok parts →
  concat parts = PyFrame <$> blocks →
  Forall distinct_labels blocks →
  Forall (λ d, columns d ≡ₚ cols) blocks →
  Forall (frame_typed τ) blocks →
  maps_schema f τ τ' cols →
  dom kwargs ⊆ ({[ "preservesPartitioning" ]} : gset string) →
  agree same_table_up_to_order
        (applymap_then_collect sched self f kwargs σ).1 (map_of_concat f blocks) ∧
  (Forall (λ d, columns d = cols) blocks →
   agree same_frame_up_to_order
         (applymap_then_collect sched self f kwargs σ).1 (map_of_concat f blocks)).
Proof.
  intros Hw Hparts Hblocks Hnd Hcols Htyped Hf Hkw.
  assert (Hall : Forall (conforms τ cols (columns <$> blocks)) blocks).
  { apply Forall_forall. intros d Hd. repeat split.
    - by apply (proj1 (Forall_forall _ _) Hnd).
    - by apply (proj1 (Forall_forall _ _) Hcols).
    - by apply list_elem_of_fmap_2.
    - by apply (proj1 (Forall_forall _ _) Htyped). }
  pose proof (applymap_collect_relaid sched σ self rdd parts blocks cols _ τ τ' f kwargs
                Hw Hparts Hblocks Hall Hf Hkw) as Hrel.
  split.
  - eapply agree_impl; [|exact Hrel].
    intros x y (a & b & -> & -> & Ha & Hb & Hrows). exists a, b.
    split; [reflexivity|]. split; [reflexivity|].
    by apply (relaid_table_equiv τ' τ' cols (columns <$> blocks)).
  - intros Hsame. eapply agree_impl; [|exact Hrel].
    intros x y (a & b & -> & -> & Ha & Hb & Hrows). exists a, b.
    split; [reflexivity|]. split; [reflexivity|].
    assert (Horder : ∀ d, conforms τ' cols (columns <$> blocks) d → columns d = cols).
    { intros d (_ & _ & Hin & _). apply list_elem_of_fmap in Hin as (d0 & -> & Hd0).
      by apply (proj1 (Forall_forall _ _) Hsame). }
    apply (table_frame_equiv τ').
    + apply Ha.
    + apply Ha.
    + by rewrite (Horder a Ha), (Horder b Hb).
    + by apply (relaid_table_equiv τ' τ' cols (columns <$> blocks)).
Qed.

(** Two frames without a common column, one per partition, and the
    function that returns ["panda"] whatever the cell. *)
Definition magic_only : DataFrame := mkFrame ["magic"] [(0, [CStr "tea"])].
Definition thing_only : DataFrame := mkFrame ["thing"] [(0, [CStr "happy"])].
Definition magic_thing : RDD :=
  ParallelCollection [[PyFrame magic_only]; [PyFrame thing_only]].
Definition to_panda : cell → result cell := λ _, Ok (CStr "panda").

(** C2 as stated, for every collection of frames, fails: when the blocks
    do not have the same columns, [append] fills the cells a block lacks
    with the missing value.  Mapping the blocks and then collecting leaves
    those cells missing; mapping the direct concatenation applies the
    function to them too.  The two frames differ by more than the order
    of their rows. *)
Lemma applymap_collect_not_map :
  let σ := constructed magic_thing (mkState ∅ 0) in
  wraps σ first_ref magic_thing ∧
  compute magic_thing = Ok [[PyFrame magic_only]; [PyFrame thing_only]] ∧
  (applymap_then_collect in_order first_ref to_panda ∅ σ).1 =
    Ok (PyFrame (mkFrame ["magic"; "thing"]
                         [(0, [CStr "panda"; CNaN]); (0, [CNaN; CStr "panda"])])) ∧
  map_of_concat to_panda [magic_only; thing_only] =
    Ok (PyFrame (mkFrame ["magic"; "thing"]
                         [(0, [CStr "panda"; CStr "panda"]);
                          (0, [CStr "panda"; CStr "panda"])])) ∧
  ¬ agree same_frame_up_to_order
          (applymap_then_collect in_order first_ref to_panda ∅ σ).1
          (map_of_concat to_panda [magic_only; thing_only]) ∧
  ¬ agree same_table_up_to_order
          (applymap_then_collect in_order first_ref to_panda ∅ σ).1
          (map_of_concat to_panda [magic_only; thing_only]).
Proof.
  intros σ.
  assert (Hw : wraps σ first_ref magic_thing)
    by apply (constructed_wraps magic_thing (mkState ∅ 0)).
  assert (Hlhs : (applymap_then_collect in_order first_ref to_panda ∅ σ).1 =
                 Ok (PyFrame (mkFrame ["magic"; "thing"]
                                [(0, [CStr "panda"; CNaN]); (0, [CNaN; CStr "panda"])]))).
  { unfold applymap_then_collect, mbind, M_bind.
    rewrite (applymap_eq _ _ _ _ _ _ Hw (map_no_kwargs _ _)).
    rewrite (collect_eq _ _ _ _ (constructed_wraps _ σ)).
    vm_compute. reflexivity. }
  assert (Hrhs : map_of_concat to_panda [magic_only; thing_only] =
                 Ok (PyFrame (mkFrame ["magic"; "thing"]
                                [(0, [CStr "panda"; CStr "panda"]);
                                 (0, [CStr "panda"; CStr "panda"])])))
    by (vm_compute; reflexivity).
  assert (Hrows : ¬ [(0, [CStr "panda"; CNaN]); (0, [CNaN; CStr "panda"])] ≡ₚ
                    [(0, [CStr "panda"; CStr "panda"]);
                     (0, [CStr "panda"; CStr "panda"])]).
  { intros Hperm.
    assert (Hin : (0, [CStr "panda"; CNaN]) ∈
                  [(0, [CStr "panda"; CStr "panda"]); (0, [CStr "panda"; CStr "panda"])])
      by (rewrite <- Hperm; left).
    repeat (apply elem_of_cons in Hin as [Hin|Hin]; [discriminate|]).
    by apply elem_of_nil in Hin. }
  split; [exact Hw|]. split; [reflexivity|].
  split; [exact Hlhs|]. split; [exact Hrhs|].
  rewrite Hlhs, Hrhs. simpl. split.
  - intros (a & b & [= <-] & [= <-] & _ & Hperm). by apply Hrows.
  - intros (a & b & [= <-] & [= <-] & _ & Hperm). by apply Hrows.
Qed.

Lemma applymap_collect_is_map_witness :
  let σ := constructed tea_water (mkState ∅ 0) in
  agree same_table_up_to_order
        (applymap_then_collect newest_first first_ref to_panda ∅ σ).1
        (map_of_concat to_panda [tea; water]) ∧
  agree same_frame_up_to_order
        (applymap_then_collect newest_first first_ref to_panda ∅ σ).1
        (map_of_concat to_panda [tea; water]).
Proof.
  intros σ.
  destruct (applymap_collect_is_map newest_first σ first_ref tea_water
              [[PyFrame tea]; [PyFrame water]] [tea; water] ["magic"; "thing"]
              (λ _, TText) (λ _, TText) to_panda ∅) as [Htable Hframe].
  - apply (constructed_wraps tea_water (mkState ∅ 0)).
  - reflexivity.
  - reflexivity.
  - repeat constructor; compute_done.
  - repeat constructor.
  - repeat constructor.
  - intros c x y _ _ [= <-]. exact I.
  - set_solver.
  - split; [exact Htable|]. apply Hframe. repeat constructor.
Defined.

(** ** The algebra of the counters *)

Lemma counter_merge_assoc (a b c : StatCounter) :
  counter_merge a (counter_merge b c) = counter_merge (counter_merge a b) c.
Proof.
  destruct a as [? ? ? [?|] [?|]], b as [? ? ? [?|] [?|]], c as [? ? ? [?|] [?|]];
    unfold counter_merge; simpl; f_equal; try lia; f_equal; lia.
Qed.

Lemma counter_merge_comm (a b : StatCounter) : counter_merge a b = counter_merge b a.
Proof.
  destruct a as [? ? ? [?|] [?|]], b as [? ? ? [?|] [?|]];
    unfold counter_merge; simpl; f_equal; try lia; f_equal; lia.
Qed.

Lemma counter_merge_empty_r (a : StatCounter) : counter_merge a counter_empty = a.
Proof.
  destruct a as [? ? ? [?|] [?|]]; unfold counter_merge; simpl; f_equal; lia.
Qed.

Lemma counter_add_merge (a b : StatCounter) (v : Z) :
  counter_add (counter_merge a b) v = counter_merge a (counter_add b v).
Proof.
  destruct a as [? ? ? [?|] [?|]], b as [? ? ? [?|] [?|]];
    unfold counter_merge, counter_add; simpl; f_equal; try lia; f_equal; lia.
Qed.

Lemma foldl_counter_add (a : StatCounter) (vs : list Z) :
  foldl counter_add a vs = counter_merge a (counter_of vs).
Proof.
  unfold counter_of. induction vs as [|v vs IH] using rev_ind.
  - simpl. by rewrite counter_merge_empty_r.
  - rewrite !foldl_app. cbn [foldl]. by rewrite IH, counter_add_merge.
Qed.

(** The counter of two batches is the merge of their counters. *)
Lemma counter_of_app (vs ws : list Z) :
  counter_of (vs ++ ws) = counter_merge (counter_of vs) (counter_of ws).
Proof. unfold counter_of at 1. by rewrite foldl_app, foldl_counter_add. Qed.

Import ColumnStatCounters.

#[local] Instance merge_stats_assoc : Assoc (=) merge_stats.
Proof.
  intros a b c. apply map_eq. intros i. unfold merge_stats.
  rewrite !lookup_union_with.
  destruct (a !! i), (b !! i), (c !! i); simpl; try reflexivity.
  by rewrite counter_merge_assoc.
Qed.

#[local] Instance merge_stats_comm : Comm (=) merge_stats.
Proof.
  intros a b. apply map_eq. intros i. unfold merge_stats.
  rewrite !lookup_union_with.
  destruct (a !! i), (b !! i); simpl; try reflexivity.
  by rewrite counter_merge_comm.
Qed.

#[local] Instance merge_stats_left_id : LeftId (=) ∅ merge_stats.
Proof.
  intros a. apply map_eq. intros i. unfold merge_stats.
  rewrite lookup_union_with, lookup_empty. by destruct (a !! i).
Qed.

#[local] Instance merge_stats_right_id : RightId (=) ∅ merge_stats.
Proof. intros a. by rewrite (comm merge_stats), (left_id ∅ merge_stats). Qed.

(** ** The accumulator of a partition *)

Definition result_get {A} (d : A) (r : result A) : A :=
  match r with Ok a => a | Err _ => d end.

Lemma mapM_pair_Ok {K V} (g : K → result V) (d : V) (cols : list K) cs :
  mapM (λ c, pair c <$> g c) cols = Ok cs ↔
  Forall (λ c, is_Ok (g c)) cols ∧ cs = (λ c, (c, result_get d (g c))) <$> cols.
Proof.
  revert cs. induction cols as [|c cols IH]; intros cs.
  - simpl. split; [intros [= <-]; by split|by intros [_ ->]].
  - rewrite mapM_cons, fmap_cons. destruct (g c) as [v|e] eqn:Hc; simpl.
    + destruct (mapM _ cols) as [cs'|e] eqn:Hcols; simpl.
      * destruct (proj1 (IH cs') eq_refl) as [Hall ->]. split.
        -- intros [= <-]. split; [|reflexivity]. constructor; [by exists v|assumption].
        -- by intros [_ ->].
      * split; [discriminate|]. intros [Hall _]. inversion Hall as [|? ? _ Hall']; subst.
        assert (Hno : Err e = Ok ((λ c, (c, result_get d (g c))) <$> cols))
          by (by apply IH). discriminate.
    + split; [discriminate|]. intros [Hall _]. inversion Hall as [|? ? [v Hv] _]; subst.
      congruence.
Qed.

Lemma lookup_list_to_map_fun {V} (h : string → V) (cols : list string) (i : string) :
  (list_to_map ((λ c, (c, h c)) <$> cols) : gmap string V) !! i =
  if decide (i ∈ cols) then Some (h i) else None.
Proof.
  induction cols as [|c cols IH].
  - simpl. rewrite lookup_empty.
    by destruct (decide (i ∈ [])) as [H%elem_of_nil|].
  - rewrite fmap_cons. simpl. destruct (decide (c = i)) as [->|Hne].
    + rewrite lookup_insert_eq. rewrite decide_True by left. reflexivity.
    + rewrite lookup_insert_ne by assumption. rewrite IH.
      destruct (decide (i ∈ cols)) as [Hin|Hout].
      * rewrite decide_True by (by right). reflexivity.
      * rewrite decide_False; [reflexivity|].
        intros [->|Hin]%elem_of_cons; done.
Qed.

(** The accumulator over the frames [ds] for the columns [cols], when
    every column can be counted. *)
Definition accumulator (ds : list DataFrame) (cols : list string) : gmap string StatCounter :=
  list_to_map ((λ c, (c, result_get counter_empty (column_counter ds c))) <$> cols).

Lemma new_Ok (p : list pyobj) (cols : list string) (a : gmap string StatCounter) :
  new p cols = Ok a ↔
  cols ≠ [] ∧ ∃ ds, mapM as_frame p = Ok ds ∧
                    Forall (λ c, is_Ok (column_counter ds c)) cols ∧
                    a = accumulator ds cols.
Proof.
  unfold new. destruct (decide (cols = [])) as [->|Hne].
  { split; [discriminate|]. by intros [? _]. }
  destruct (mapM as_frame p) as [ds|e] eqn:Hds; simpl.
  - destruct (mapM _ cols) as [cs|e] eqn:Hcs; simpl.
    + apply (mapM_pair_Ok _ counter_empty) in Hcs as [Hall ->]. split.
      * intros [= <-]. split; [assumption|]. by exists ds.
      * by intros (_ & ds' & [= <-] & _ & ->).
    + split; [discriminate|]. intros (_ & ds' & [= <-] & Hall & _).
      assert (Hno : Err e = Ok ((λ c, (c, result_get counter_empty (column_counter ds c)))
                                  <$> cols))
        by (rewrite <- Hcs; by apply (mapM_pair_Ok _ counter_empty)).
      discriminate.
  - split; [discriminate|]. by intros (_ & ds' & [=] & _).
Qed.

Lemma column_counter_app (ds1 ds2 : list DataFrame) (c : string) (k1 k2 : StatCounter) :
  column_counter ds1 c = Ok k1 → column_counter ds2 c = Ok k2 →
  column_counter (ds1 ++ ds2) c = Ok (counter_merge k1 k2).
Proof.
  unfold column_counter. rewrite mapM_app.
  destruct (mapM (column_values c) ds1) as [vss1|]; simpl; [|discriminate].
  destruct (mapM (column_values c) ds2) as [vss2|]; simpl; [|discriminate].
  intros [= <-] [= <-]. by rewrite concat_app, counter_of_app.
Qed.

(** The accumulator of two partitions taken together is the merge of
    their accumulators. *)
Lemma new_app (P1 P2 : list pyobj) (cols : list string) (A1 A2 : gmap string StatCounter) :
  new P1 cols = Ok A1 → new P2 cols = Ok A2 →
  new (P1 ++ P2) cols = Ok (merge_stats A1 A2).
Proof.
  intros (Hne & ds1 & Hds1 & Hall1 & ->)%new_Ok (_ & ds2 & Hds2 & Hall2 & ->)%new_Ok.
  assert (Hall : ∀ c, c ∈ cols →
                      column_counter (ds1 ++ ds2) c =
                      Ok (counter_merge (result_get counter_empty (column_counter ds1 c))
                                        (result_get counter_empty (column_counter ds2 c)))).
  { intros c Hc.
    destruct (proj1 (Forall_forall _ _) Hall1 c Hc) as [k1 Hk1].
    destruct (proj1 (Forall_forall _ _) Hall2 c Hc) as [k2 Hk2].
    rewrite Hk1, Hk2. by apply column_counter_app. }
  apply new_Ok. split; [assumption|]. exists (ds1 ++ ds2). split; [|split].
  - by rewrite mapM_app, Hds1, Hds2.
  - apply Forall_forall. intros c Hc. rewrite (Hall c Hc). by eexists.
  - apply map_eq. intros i. unfold merge_stats, accumulator.
    rewrite lookup_union_with, !lookup_list_to_map_fun.
    destruct (decide (i ∈ cols)) as [Hi|]; [|reflexivity].
    simpl. by rewrite (Hall i Hi).
Qed.

Lemma column_counter_Ok_columns (ds : list DataFrame) (c : string) :
  is_Ok (column_counter ds c) → Forall (λ d, c ∈ columns d) ds.
Proof.
  intros [k Hk]. unfold column_counter in Hk.
  destruct (mapM (column_values c) ds) as [vss|] eqn:Hvss; [|discriminate].
  apply mapM_Ok_Forall2 in Hvss. clear Hk.
  induction Hvss as [|d vs ds vss Hd _ IH]; constructor; [|assumption].
  destruct (decide (c ∈ columns d)) as [|Hc]; [assumption|].
  unfold column_values, df_getitem in Hd. by rewrite filter_absent in Hd.
Qed.

(** What it takes for the constructor to return: columns to count, and
    only frames that have every one of them. *)
Lemma new_Ok_frames (p : list pyobj) (cols : list string) (a : gmap string StatCounter) :
  new p cols = Ok a →
  cols ≠ [] ∧
  Forall (λ x, ∃ d, x = PyFrame d ∧ ∀ c, c ∈ cols → c ∈ columns d) p.
Proof.
  intros (Hne & ds & Hds & Hall & _)%new_Ok. split; [assumption|].
  assert (Hcols : ∀ c, c ∈ cols → Forall (λ d, c ∈ columns d) ds).
  { intros c Hc. apply column_counter_Ok_columns.
    by apply (proj1 (Forall_forall _ _) Hall). }
  clear Hall. apply mapM_Ok_Forall2 in Hds.
  induction Hds as [|x d p ds Hx _ IH]; constructor.
  - destruct x; try discriminate. injection Hx as ->. eexists. split; [reflexivity|].
    intros c Hc. specialize (Hcols c Hc). by inversion Hcols.
  - apply IH. intros c Hc. specialize (Hcols c Hc). by inversion Hcols.
Qed.

(** ** Reducing the accumulators *)

(** The function that [stats] runs over every partition. *)
Definition partition_stats (cols : list string) (i : list pyobj) : result (list pyobj) :=
  c ← new i cols; mret [PyStats c].

Lemma mapM_partition_stats (cols : list string) (parts : list (list pyobj)) :
  mapM (partition_stats cols) parts =
  (fmap (λ a, [PyStats a]) : list (gmap string StatCounter) → list (list pyobj)) <$>
    mapM (λ p, new p cols) parts.
Proof.
  induction parts as [|p parts IH]; [reflexivity|].
  rewrite !mapM_cons, IH. unfold partition_stats at 1.
  destruct (new p cols); simpl; [|reflexivity].
  destruct (mapM (λ p, new p cols) parts); reflexivity.
Qed.

Lemma concat_singletons {A B} (h : A → B) (l : list A) :
  concat ((λ a, [h a]) <$> l) = h <$> l.
Proof. induction l as [|a l IH]; [reflexivity|]. rewrite !fmap_cons. simpl. by f_equal. Qed.

Definition is_stats (x : pyobj) : Prop := ∃ c, x = PyStats c.

Definition stats_of (x : pyobj) : gmap string StatCounter :=
  match x with PyStats c => c | _ => ∅ end.

Lemma reduceFunc_stats (x y : pyobj) :
  is_stats x → is_stats y →
  ∃ z, reduceFunc x y = Ok z ∧ is_stats z ∧
       stats_of z = merge_stats (stats_of x) (stats_of y).
Proof.
  intros [a ->] [b ->]. eexists. split; [reflexivity|]. split; [by eexists|reflexivity].
Qed.

Lemma total_stats (accs : list (gmap string StatCounter)) :
  total stats_of merge_stats ∅ (PyStats <$> accs) = foldr merge_stats ∅ accs.
Proof. induction accs as [|a accs IH]; [reflexivity|]. rewrite fmap_cons. simpl. by rewrite IH. Qed.

(** Under every schedule, the reduction returns the merge of the
    accumulators of the partitions. *)
Lemma reduce_stats (sched : schedule) (rdd : RDD) (parts : list (list pyobj))
      (cols : list string) (accs : list (gmap string StatCounter)) :
  compute rdd = Ok parts →
  mapM (λ p, new p cols) parts = Ok accs →
  reduce sched reduceFunc (mapPartitions (partition_stats cols) rdd) =
    match accs with
    | [] => Err TypeError
    | _ => Ok (PyStats (foldr merge_stats ∅ accs))
    end.
Proof.
  intros Hparts Haccs. unfold reduce, mapPartitions. simpl. rewrite Hparts. simpl.
  rewrite mapM_partition_stats, Haccs. simpl. rewrite concat_singletons.
  destruct (decide (accs = [])) as [->|Hne].
  { simpl. by rewrite combine_nil. }
  assert (Hne' : PyStats <$> accs ≠ []) by (by destruct accs).
  assert (Hall : Forall is_stats (PyStats <$> accs)).
  { apply Forall_fmap, Forall_true. intros a. by eexists. }
  destruct (schedule_measure reduceFunc is_stats stats_of merge_stats ∅ eq
              reduceFunc_stats
              (sched (length <$> ((λ a, [PyStats a]) <$> accs))) _ Hne' Hall)
    as (r & -> & [c ->] & Hc).
  simpl in Hc. rewrite total_stats in Hc. subst c. by destruct accs.
Qed.

Lemma reduce_stats_Err (sched : schedule) (rdd : RDD) (cols : list string) (e : exn) :
  (parts ← compute rdd; mapM (λ p, new p cols) parts) = Err e →
  reduce sched reduceFunc (mapPartitions (partition_stats cols) rdd) = Err e.
Proof.
  unfold reduce, mapPartitions. simpl.
  destruct (compute rdd) as [parts|]; simpl; [|by intros [= ->]].
  rewrite mapM_partition_stats. by intros ->.
Qed.

(** The accumulator over all the blocks, from those of the partitions. *)
Lemma new_concat (cols : list string) (parts : list (list pyobj))
      (accs : list (gmap string StatCounter)) :
  parts ≠ [] →
  mapM (λ p, new p cols) parts = Ok accs →
  new (concat parts) cols = Ok (foldr merge_stats ∅ accs).
Proof.
  intros Hne H%mapM_Ok_Forall2. induction H as [|p a parts accs Hp Hrest IH]; [done|].
  simpl. destruct parts as [|p' parts].
  - inversion Hrest; subst. simpl. by rewrite app_nil_r, (right_id ∅ merge_stats).
  - apply new_app; [assumption|]. by apply IH.
Qed.

Lemma stats_fst (sched : schedule) (σ : state) (self : ref) (cols : list string) :
  (stats sched self cols σ).1 =
  match heap σ !! self ≫= _rdd with
  | Some rdd => reduce sched reduceFunc (mapPartitions (partition_stats cols) rdd)
  | None => Err AttributeError
  end.
Proof.
  destruct (heap σ !! self ≫= _rdd) as [rdd|] eqn:Hw.
  - by rewrite (stats_eq _ _ _ _ _ Hw).
  - unfold stats. unfold mbind at 1. unfold M_bind.
    by rewrite (get_rdd_unwrapped _ _ Hw).
Qed.

(** The value of [stats] does not depend on the schedule. *)
Lemma stats_schedule (s1 s2 : schedule) (σ : state) (self : ref) (cols : list string) :
  (stats s1 self cols σ).1 = (stats s2 self cols σ).1.
Proof.
  rewrite !stats_fst. destruct (heap σ !! self ≫= _rdd) as [rdd|]; [|reflexivity].
  destruct (parts ← compute rdd; mapM (λ p, new p cols) parts) as [accs|e] eqn:H.
  - destruct (compute rdd) as [parts|] eqn:Hparts; [|discriminate]. simpl in H.
    by rewrite !(reduce_stats _ _ _ _ _ Hparts H).
  - by rewrite !(reduce_stats_Err _ _ _ _ H).
Qed.

(** Over a collection with at least one partition, all of which can be
    counted, [stats] returns the accumulator of the whole collection. *)
Lemma stats_value (sched : schedule) (σ : state) (self : ref) (rdd : RDD)
      (parts : list (list pyobj)) (cols : list string) :
  wraps σ self rdd → compute rdd = Ok parts → parts ≠ [] →
  Forall (λ p, is_Ok (new p cols)) parts →
  (stats sched self cols σ).1 = PyStats <$> new (concat parts) cols.
Proof.
  intros Hw Hparts Hne Hall.
  rewrite stats_fst. unfold wraps in Hw. rewrite Hw.
  destruct (mapM_is_Ok (λ p, new p cols) parts Hall) as [accs Haccs].
  rewrite (reduce_stats _ _ _ _ _ Hparts Haccs), (new_concat _ _ _ Hne Haccs).
  apply mapM_length in Haccs. by destruct accs, parts.
Qed.

(** C3: when the accumulators [A1] and [A2] of two partitions [P1] and
    [P2] exist for the columns [cols], their merge is the accumulator of
    the two partitions taken together; count, mean, standard deviation,
    max and min of a column are read from it.  The merge is associative and
    commutative.  Hence [stats] returns the same value under any two
    schedules of the runtime, and over a collection with at least one
    partition, all of which can be counted, the accumulator of the whole
    collection. *)
Theorem merge_is_stats_of_union (P1 P2 : list pyobj) (cols : list string)
        (A1 A2 : gmap string StatCounter) :
  new P1 cols = Ok A1 →
  new P2 cols = Ok A2 →
  new (P1 ++ P2) cols = Ok (merge_stats A1 A2) ∧
  Assoc (=) merge_stats ∧
  Comm (=) merge_stats ∧
  (∀ s1 s2 σ self columns,
      (stats s1 self columns σ).1 = (stats s2 self columns σ).1) ∧
  (∀ sched σ self rdd parts columns,
      wraps σ self rdd → compute rdd = Ok parts → parts ≠ [] →
      Forall (λ p, is_Ok (new p columns)) parts →
      (stats sched self columns σ).1 = PyStats <$> new (concat parts) columns).
Proof.
  intros H1 H2. split; [by apply new_app|].
  split; [apply merge_stats_assoc|]. split; [apply merge_stats_comm|].
  split; [apply stats_schedule|].
  intros sched σ self rdd parts columns Hw Hparts Hne Hall.
  by apply (stats_value _ _ _ rdd).
Qed.

(** The rows of the documentation of [stats], as one block and as one
    block per row. *)
Definition magic_ninja_coffee : DataFrame :=
  mkFrame ["a"; "b"] [(0, [CStr "magic"; CInt 10]);
                      (1, [CStr "ninja"; CInt 20]);
                      (2, [CStr "coffee"; CInt 30])].

Definition one_row (label : string) (n : Z) : pyobj :=
  PyFrame (mkFrame ["a"; "b"] [(0, [CStr label; CInt n])]).

Definition scenario_block : RDD := ParallelCollection [[PyFrame magic_ninja_coffee]].

Definition scenario_rows : RDD :=
  ParallelCollection [[one_row "magic" 10]; [one_row "ninja" 20; one_row "coffee" 30]].

Lemma merge_is_stats_of_union_witness :
  let A1 : gmap string StatCounter := {[ "b" := mkCounter 1 10 100 (Some 10) (Some 10) ]} in
  let A2 : gmap string StatCounter := {[ "b" := mkCounter 2 50 1300 (Some 30) (Some 20) ]} in
  new ([one_row "magic" 10] ++ [one_row "ninja" 20; one_row "coffee" 30]) ["b"] =
    Ok (merge_stats A1 A2).
Proof.
  intros A1 A2.
  apply (merge_is_stats_of_union [one_row "magic" 10]
           [one_row "ninja" 20; one_row "coffee" 30] ["b"] A1 A2).
  - vm_compute. reflexivity.
  - vm_compute. reflexivity.
Defined.

(** ** [stats] needs columns *)

Lemma stats_Ok_inv (sched : schedule) (σ : state) (self : ref) (cols : list string)
      (a : pyobj) :
  (stats sched self cols σ).1 = Ok a →
  ∃ rdd parts accs, wraps σ self rdd ∧ compute rdd = Ok parts ∧ parts ≠ [] ∧
                    mapM (λ p, new p cols) parts = Ok accs.
Proof.
  rewrite stats_fst. destruct (heap σ !! self ≫= _rdd) as [rdd|] eqn:Hw; [|discriminate].
  destruct (parts ← compute rdd; mapM (λ p, new p cols) parts) as [accs|e] eqn:H.
  - destruct (compute rdd) as [parts|] eqn:Hparts; [|discriminate]. simpl in H.
    rewrite (reduce_stats _ _ _ _ _ Hparts H). intros Hok.
    exists rdd, parts, accs. repeat split; try assumption.
    intros ->. injection H as <-. discriminate.
  - by rewrite (reduce_stats_Err _ _ _ _ H).
Qed.

(** C5: for every wrapper, [stats] with no column raises.  When [stats]
    returns, the list of columns is not empty and every element of every
    partition is a frame that has every listed column. *)
Theorem stats_needs_columns (sched : schedule) (σ : state) (self : ref) :
  is_Err (stats sched self [] σ).1 ∧
  (∀ columns a,
      (stats sched self columns σ).1 = Ok a →
      columns ≠ [] ∧
      ∃ rdd parts,
        wraps σ self rdd ∧ compute rdd = Ok parts ∧
        Forall (Forall (λ x, ∃ d, x = PyFrame d ∧ ∀ c, c ∈ columns → c ∈ Pandas.columns d))
               parts).
Proof.
  assert (Hinv : ∀ columns a,
             (stats sched self columns σ).1 = Ok a →
             columns ≠ [] ∧
             ∃ rdd parts,
               wraps σ self rdd ∧ compute rdd = Ok parts ∧
               Forall (Forall (λ x, ∃ d, x = PyFrame d ∧
                                         ∀ c, c ∈ columns → c ∈ Pandas.columns d))
                      parts).
  { intros columns a (rdd & parts & accs & Hw & Hparts & Hne & Haccs)%stats_Ok_inv.
    apply mapM_Ok_Forall2 in Haccs.
    assert (Hall : Forall (λ p, ∃ acc, new p columns = Ok acc) parts).
    { clear Hne Hparts. induction Haccs; constructor; eauto. }
    split.
    - destruct parts as [|p parts]; [done|].
      inversion Hall as [|? ? [acc Hacc] _]; subst.
      by apply new_Ok_frames in Hacc as [? _].
    - exists rdd, parts. split; [assumption|]. split; [assumption|].
      eapply Forall_impl; [exact Hall|].
      intros p [acc Hacc]. by apply new_Ok_frames in Hacc as [_ ?]. }
  split; [|exact Hinv].
  destruct (stats sched self [] σ).1 as [a|e] eqn:H; [|by exists e].
  by destruct (Hinv [] a H) as [? _].
Qed.

(** ** The scenario of the documentation of [stats] *)

Lemma sqrt_between (x lo hi : R) :
  (0 <= lo)%R → (0 <= hi)%R → (lo * lo < x)%R → (x < hi * hi)%R →
  (lo < sqrt x < hi)%R.
Proof.
  intros Hlo Hhi Hlt Hgt.
  assert (Hx : (0 <= x)%R) by nra.
  split.
  - rewrite <- (sqrt_square lo Hlo). apply sqrt_lt_1; [nra|assumption|assumption].
  - rewrite <- (sqrt_square hi Hhi). apply sqrt_lt_1; [assumption|nra|assumption].
Qed.

(** The counter of column [b] in the scenario. *)
Definition scenario_counter : StatCounter := mkCounter 3 60 1400 (Some 30) (Some 10).

Lemma scenario_stdev :
  (Rabs (stdev scenario_counter - 8164965809 / 1000000000) < 1 / 1000000000)%R.
Proof.
  unfold stdev.
  assert (Hvar : Q2R (variance scenario_counter) = (200 / 3)%R).
  { rewrite (Qeq_eqR (variance scenario_counter) (200 # 3)) by reflexivity.
    unfold Q2R. simpl. lra. }
  rewrite Hvar.
  destruct (sqrt_between (200 / 3) (8164965808 / 1000000000) (8164965810 / 1000000000))
    as [Hlo Hhi]; try lra.
  apply Rabs_def1; lra.
Qed.

(** C7: over the rows [("magic",10), ("ninja",20), ("coffee",30)] with
    the columns [a] and [b], held as one block or as one block per row,
    [stats(columns=["b"])] returns under every schedule an accumulator whose
    counter for [b] has count 3, mean 20, a standard deviation within
    [10^-9] of 8.164965809, max 30 and min 10. *)
Theorem stats_scenario (sched : schedule) (σ : state) (self : ref) (rdd : RDD) :
  wraps σ self rdd →
  rdd = scenario_block ∨ rdd = scenario_rows →
  ∃ k,
    (stats sched self ["b"] σ).1 = Ok (PyStats {[ "b" := k ]}) ∧
    count k = 3 ∧
    (mean k == 20)%Q ∧
    (Rabs (stdev k - 8164965809 / 1000000000) < 1 / 1000000000)%R ∧
    max_value k = Some 30 ∧
    min_value k = Some 10.
Proof.
  intros Hw Hrdd. exists scenario_counter.
  split; [|split; [reflexivity|split; [reflexivity|split;
                     [apply scenario_stdev|split; reflexivity]]]].
  destruct Hrdd as [-> | ->].
  - rewrite (stats_value sched σ self scenario_block
               [[PyFrame magic_ninja_coffee]] ["b"] Hw eq_refl);
      [vm_compute; reflexivity|done|].
    repeat constructor. eexists. vm_compute. reflexivity.
  - rewrite (stats_value sched σ self scenario_rows
               [[one_row "magic" 10]; [one_row "ninja" 20; one_row "coffee" 30]]
               ["b"] Hw eq_refl);
      [vm_compute; reflexivity|done|].
    repeat constructor; eexists; vm_compute; reflexivity.
Qed.

Lemma stats_scenario_witness :
  let σ := constructed scenario_block (mkState ∅ 0) in
  ∃ k,
    (stats in_order first_ref ["b"] σ).1 = Ok (PyStats {[ "b" := k ]}) ∧
    count k = 3 ∧
    (mean k == 20)%Q ∧
    (Rabs (stdev k - 8164965809 / 1000000000) < 1 / 1000000000)%R ∧
    max_value k = Some 30 ∧
    min_value k = Some 10.
Proof.
  intros σ.
  apply (stats_scenario in_order σ first_ref scenario_block).
  - apply (constructed_wraps scenario_block (mkState ∅ 0)).
  - left. reflexivity.
Defined.

(** On the block of the scenario [stats] raises without columns, and
    returns for the column [b], which the block has. *)
Lemma stats_needs_columns_witness :
  let σ := constructed scenario_block (mkState ∅ 0) in
  is_Err (stats in_order first_ref [] σ).1 ∧
  ["b"] ≠ [] ∧
  ∃ rdd parts,
    wraps σ first_ref rdd ∧ compute rdd = Ok parts ∧
    Forall (Forall (λ x, ∃ d, x = PyFrame d ∧ ∀ c, c ∈ ["b"] → c ∈ columns d)) parts.
Proof.
  intros σ.
  destruct (stats_needs_columns in_order σ first_ref) as [Hempty Hinv].
  split; [exact Hempty|].
  apply (Hinv ["b"] (PyStats {[ "b" := scenario_counter ]})).
  rewrite (stats_value in_order σ first_ref scenario_block
             [[PyFrame magic_ninja_coffee]] ["b"]
             (constructed_wraps scenario_block (mkState ∅ 0)) eq_refl);
    [vm_compute; reflexivity|done|].
  repeat constructor. eexists. vm_compute. reflexivity.
Defined.


(** * Further properties of the methods *)

(** ** What [collect] returns *)

Lemma collect_fst (sched : schedule) (σ : state) (self : ref) :
  (collect sched self σ).1 =
  match heap σ !! self ≫= _rdd with
  | Some rdd => reduce sched appendFrames rdd
  | None => Err AttributeError
  end.
Proof.
  destruct (heap σ !! self ≫= _rdd) as [rdd|] eqn:Hw.
  - by rewrite (collect_eq _ _ _ _ Hw).
  - unfold collect. unfold mbind at 1. unfold M_bind.
    by rewrite (get_rdd_unwrapped _ _ Hw).
Qed.

Lemma combine_singleton {A} (f : A → A → result A) steps (x : A) :
  combine f steps [x] = Ok [x].
Proof.
  induction steps as [|[i j] steps IH]; [reflexivity|]. simpl.
  destruct i as [|i], j as [|j]; simpl; try exact IH.
Qed.

(** X1: a collection of one element collects to that element, whatever it
    is and whatever the schedule: nothing is appended and nothing is
    checked. *)
Theorem collect_single (sched : schedule) (σ : state) (self : ref) (rdd : RDD)
        (parts : list (list pyobj)) (x : pyobj) :
  wraps σ self rdd →
  compute rdd = Ok parts →
  concat parts = [x] →
  (collect sched self σ).1 = Ok x.
Proof.
  intros Hw Hparts Hx. rewrite (collect_eq _ _ _ _ Hw). simpl.
  rewrite (reduce_eq _ _ _ _ Hparts), Hx, combine_singleton. reflexivity.
Qed.

(** One integer between two empty partitions. *)
Lemma collect_single_witness :
  let rdd := ParallelCollection [[]; [PyInt 7]; []] in
  (collect newest_first first_ref (constructed rdd (mkState ∅ 0))).1 = Ok (PyInt 7).
Proof.
  intros rdd.
  apply (collect_single newest_first _ first_ref rdd [[]; [PyInt 7]; []] (PyInt 7)).
  - apply (constructed_wraps rdd (mkState ∅ 0)).
  - reflexivity.
  - reflexivity.
Defined.

Lemma concat_relaid_Permutation cols (bs1 bs2 : list DataFrame) :
  bs1 ≡ₚ bs2 → concat (relaid cols <$> bs1) ≡ₚ concat (relaid cols <$> bs2).
Proof.
  induction 1 as [|d bs1 bs2 _ IH|d d' bs|bs1 bs2 bs3 _ IH1 _ IH2]; simpl.
  - reflexivity.
  - by rewrite IH.
  - rewrite !app_assoc. f_equiv. apply Permutation_app_comm.
  - by rewrite IH1.
Qed.

(** X2: the partitioning does not matter to [collect], up to the order of
    the rows.  Two wrappers over the same blocks, frames with distinct
    labels, the same for all of them in whatever order, and with cells of
    the types of a schema: however the blocks are laid out in partitions
    and in whatever order, they collect under any two schedules to the
    same table up to the order of the rows and of the columns (and both
    raise when there is no block).  When the labels are in the same order
    in all blocks, the two frames have the same columns and the same rows
    up to their order. *)
Theorem collect_repartition (sched1 sched2 : schedule) (σ1 σ2 : state)
        (self1 self2 : ref) (rdd1 rdd2 : RDD) (parts1 parts2 : list (list pyobj))
        (blocks1 blocks2 : list DataFrame) (cols : list string) (τ : string → ctype) :
  wraps σ1 self1 rdd1 → compute rdd1 = Ok parts1 → concat parts1 = PyFrame <$> blocks1 →
  wraps σ2 self2 rdd2 → compute rdd2 = Ok parts2 → concat parts2 = PyFrame <$> blocks2 →
  blocks1 ≡ₚ blocks2 →
  Forall distinct_labels blocks1 →
  Forall (λ d, columns d ≡ₚ cols) blocks1 →
  Forall (frame_typed τ) blocks1 →
  agree same_table_up_to_order (collect sched1 self1 σ1).1 (collect sched2 self2 σ2).1 ∧
  (Forall (λ d, columns d = cols) blocks1 →
   agree same_frame_up_to_order (collect sched1 self1 σ1).1 (collect sched2 self2 σ2).1).
Proof.
  intros Hw1 Hp1 Hb1 Hw2 Hp2 Hb2 Hperm Hnd Hcols Htyped.
  assert (Hall1 : Forall (conforms τ cols (columns <$> blocks1)) blocks1).
  { apply Forall_forall. intros d Hd. repeat split.
    - by apply (proj1 (Forall_forall _ _) Hnd).
    - by apply (proj1 (Forall_forall _ _) Hcols).
    - by apply list_elem_of_fmap_2.
    - by apply (proj1 (Forall_forall _ _) Htyped). }
  assert (Hall2 : Forall (conforms τ cols (columns <$> blocks1)) blocks2)
    by (by rewrite <- Hperm).
  rewrite (collect_eq _ _ _ _ Hw1), (collect_eq _ _ _ _ Hw2). simpl.
  rewrite (reduce_eq _ _ _ _ Hp1), (reduce_eq _ _ _ _ Hp2), Hb1, Hb2.
  destruct (decide (blocks1 = [])) as [->|Hne1].
  { apply Permutation_nil_l in Hperm. subst blocks2. simpl.
    by rewrite !combine_nil. }
  assert (Hne2 : blocks2 ≠ []).
  { intros ->. by apply Permutation_nil_r in Hperm. }
  destruct (reduce_conforming τ cols _ (sched1 (length <$> parts1)) blocks1 Hne1 Hall1)
    as (d1 & -> & Hd1 & Hr1).
  destruct (reduce_conforming τ cols _ (sched2 (length <$> parts2)) blocks2 Hne2 Hall2)
    as (d2 & -> & Hd2 & Hr2).
  assert (Htable : table_equiv d1 d2).
  { apply (relaid_table_equiv τ τ cols (columns <$> blocks1)); [assumption..|].
    by rewrite Hr1, Hr2, (concat_relaid_Permutation _ _ _ Hperm). }
  split.
  - by exists d1, d2.
  - intros Hsame. exists d1, d2. split; [reflexivity|]. split; [reflexivity|].
    assert (Horder : ∀ d, conforms τ cols (columns <$> blocks1) d → columns d = cols).
    { intros d (_ & _ & Hin & _). apply list_elem_of_fmap in Hin as (d0 & -> & Hd0).
      by apply (proj1 (Forall_forall _ _) Hsame). }
    apply (table_frame_equiv τ); [apply Hd1..| |assumption].
    by rewrite (Horder d1 Hd1), (Horder d2 Hd2).
Qed.

Lemma collect_repartition_witness :
  agree same_table_up_to_order
        (collect in_order first_ref (constructed tea_water (mkState ∅ 0))).1
        (collect newest_first first_ref (constructed tea_water_together (mkState ∅ 0))).1 ∧
  agree same_frame_up_to_order
        (collect in_order first_ref (constructed tea_water (mkState ∅ 0))).1
        (collect newest_first first_ref (constructed tea_water_together (mkState ∅ 0))).1.
Proof.
  destruct (collect_repartition in_order newest_first
              (constructed tea_water (mkState ∅ 0))
              (constructed tea_water_together (mkState ∅ 0)) first_ref first_ref
              tea_water tea_water_together
              [[PyFrame tea]; [PyFrame water]] [[PyFrame tea; PyFrame water]]
              [tea; water] [tea; water] ["magic"; "thing"] (λ _, TText))
    as [Htable Hframe].
  - apply (constructed_wraps tea_water (mkState ∅ 0)).
  - reflexivity.
  - reflexivity.
  - apply (constructed_wraps tea_water_together (mkState ∅ 0)).
  - reflexivity.
  - reflexivity.
  - reflexivity.
  - repeat constructor; compute_done.
  - repeat constructor.
  - repeat constructor.
  - split; [exact Htable|]. apply Hframe. repeat constructor.
Defined.

(** Frames, measured by the number of their rows. *)
Definition row_count (x : pyobj) : nat :=
  match x with PyFrame d => length (rows d) | _ => 0%nat end.

Lemma append_row_count (x y : pyobj) :
  is_distinct_frame x → is_distinct_frame y →
  ∃ z, appendFrames x y = Ok z ∧ is_distinct_frame z ∧
       row_count z = (row_count x + row_count y)%nat.
Proof.
  intros (a & -> & Ha) (b & -> & Hb).
  destruct (df_append_distinct a b Ha Hb) as (z & Hz & Hnd & _ & Hlen & _).
  exists (PyFrame z). unfold appendFrames. simpl. rewrite Hz.
  split; [reflexivity|]. split; [by exists z|assumption].
Qed.

Lemma total_row_count (blocks : list DataFrame) :
  total row_count Nat.add 0%nat (PyFrame <$> blocks) =
  length (concat (rows <$> blocks)).
Proof.
  induction blocks as [|d blocks IH]; [reflexivity|].
  rewrite !fmap_cons. simpl. by rewrite IH, length_app.
Qed.

Lemma Forall_is_distinct_frame (blocks : list DataFrame) :
  Forall distinct_labels blocks → Forall is_distinct_frame (PyFrame <$> blocks).
Proof.
  intros H. apply Forall_fmap. eapply Forall_impl; [exact H|].
  intros d Hd. by exists d.
Qed.

(** X3: [collect] neither drops nor repeats a row.  Over a collection of
    at least one frame, all with distinct labels, whatever the columns of
    the frames and whatever the schedule, it returns a frame with as many
    rows as the blocks have together. *)
Theorem collect_row_count (sched : schedule) (σ : state) (self : ref) (rdd : RDD)
        (parts : list (list pyobj)) (blocks : list DataFrame) :
  wraps σ self rdd →
  compute rdd = Ok parts →
  concat parts = PyFrame <$> blocks →
  blocks ≠ [] →
  Forall distinct_labels blocks →
  ∃ d, (collect sched self σ).1 = Ok (PyFrame d) ∧
       length (rows d) = length (concat (rows <$> blocks)).
Proof.
  intros Hw Hparts Hblocks Hne Hnd. rewrite (collect_eq _ _ _ _ Hw). simpl.
  rewrite (reduce_eq _ _ _ _ Hparts), Hblocks.
  assert (Hne' : PyFrame <$> blocks ≠ []) by (by destruct blocks).
  destruct (schedule_measure appendFrames is_distinct_frame row_count Nat.add 0%nat eq
              append_row_count (sched (length <$> parts)) _ Hne'
              (Forall_is_distinct_frame blocks Hnd))
    as (r & -> & (d & -> & _) & Hcount).
  exists d. split; [reflexivity|]. simpl in Hcount. by rewrite Hcount, total_row_count.
Qed.

(** Frames without a common column. *)
Lemma collect_row_count_witness :
  ∃ d, (collect newest_first first_ref (constructed magic_thing (mkState ∅ 0))).1 =
         Ok (PyFrame d) ∧
       length (rows d) = length (concat (rows <$> [magic_only; thing_only])).
Proof.
  apply (collect_row_count newest_first _ first_ref magic_thing
           [[PyFrame magic_only]; [PyFrame thing_only]] [magic_only; thing_only]).
  - apply (constructed_wraps magic_thing (mkState ∅ 0)).
  - reflexivity.
  - reflexivity.
  - discriminate.
  - repeat constructor; compute_done.
Defined.

(** ** Errors appear when the job runs *)

Lemma reduce_mapped_Err_eq sched f rdd parts g b e :
  compute rdd = Ok parts →
  mapM g (concat parts) = Err e →
  reduce sched f (PipelinedRDD rdd (mapM g) b) = Err e.
Proof.
  intros Hparts He. unfold reduce. simpl. rewrite Hparts. simpl.
  rewrite <- mapM_concat in He.
  destruct (mapM (mapM g) parts) as [parts'|e'] eqn:Hparts'; [discriminate|].
  by injection He as ->.
Qed.

Lemma mapM_Exists_Err {A B} (f : A → result B) (l : list A) :
  Exists (λ x, is_Err (f x)) l → is_Err (mapM f l).
Proof.
  induction 1 as [x l [e He]|x l _ [e He]]; rewrite mapM_cons.
  - rewrite He. by exists e.
  - destruct (f x) as [y|e']; simpl; [|by exists e'].
    rewrite He. by exists e.
Qed.

Lemma mapM_getitem_missing (key : string) (blocks : list DataFrame) :
  Exists (λ d, key ∉ columns d) blocks →
  is_Err (mapM (py_getitem key) (PyFrame <$> blocks)) ∧
  ∀ e, mapM (py_getitem key) (PyFrame <$> blocks) = Err e → e = KeyError.
Proof.
  intros H. assert (Hmissing : ∀ d, key ∉ columns d → py_getitem key (PyFrame d) = Err KeyError).
  { intros d Hd. simpl. unfold df_getitem. by rewrite filter_absent. }
  assert (Hfound : ∀ d e, py_getitem key (PyFrame d) = Err e → e = KeyError).
  { intros d e. simpl. unfold df_getitem.
    destruct (filter _ _) as [|? [|? ?]]; simpl; intros He;
      [by injection He|discriminate..]. }
  induction H as [d blocks Hd|d blocks _ [IH1 IH2]]; rewrite fmap_cons, mapM_cons.
  - rewrite (Hmissing d Hd). simpl. split; [by eexists|congruence].
  - destruct (py_getitem key (PyFrame d)) as [x|e'] eqn:Hx; simpl.
    + destruct IH1 as [e' He']. rewrite He'. simpl. split; [by eexists|].
      intros e [= <-]. by apply IH2.
    + split; [by eexists|]. intros e [= <-]. by apply (Hfound d).
Qed.

(** X4: selecting a column that some block does not have.  On a collection
    of frames [__getitem__] returns a wrapper all the same and runs no
    job; it is [collect] on that wrapper that raises [KeyError], under every
    schedule. *)
Theorem getitem_missing_key (sched : schedule) (σ : state) (self : ref) (rdd : RDD)
        (parts : list (list pyobj)) (blocks : list DataFrame) (key : string) :
  wraps σ self rdd →
  compute rdd = Ok parts →
  concat parts = PyFrame <$> blocks →
  Exists (λ d, key ∉ columns d) blocks →
  ∃ p σ', __getitem__ self key σ = (Ok p, σ') ∧
          jobs σ' = jobs σ ∧
          (collect sched p σ').1 = Err KeyError.
Proof.
  intros Hw Hparts Hblocks Hmiss.
  eexists _, _. split; [apply (getitem_eq _ _ _ _ Hw)|]. split; [reflexivity|].
  rewrite (collect_eq _ _ _ _ (constructed_wraps _ σ)). simpl.
  destruct (mapM_getitem_missing key blocks Hmiss) as [[e He] Hkey].
  rewrite (Hkey e He) in He.
  apply (reduce_mapped_Err_eq _ _ _ parts); [assumption|].
  by rewrite Hblocks.
Qed.

Lemma getitem_missing_key_witness :
  ∃ p σ', __getitem__ first_ref "thing" (constructed magic_thing (mkState ∅ 0)) = (Ok p, σ') ∧
          jobs σ' = jobs (constructed magic_thing (mkState ∅ 0)) ∧
          (collect in_order p σ').1 = Err KeyError.
Proof.
  apply (getitem_missing_key in_order _ first_ref magic_thing
           [[PyFrame magic_only]; [PyFrame thing_only]] [magic_only; thing_only] "thing").
  - apply (constructed_wraps magic_thing (mkState ∅ 0)).
  - reflexivity.
  - reflexivity.
  - apply Exists_cons_hd. vm_compute. intros H. inversion H as [|? ? ? H']; inversion H'.
Defined.

(** [f] raises on a cell of the frame. *)
Definition raises_on (f : cell → result cell) (d : DataFrame) : Prop :=
  Exists (λ r : row, Exists (λ c, is_Err (f c)) r.2) (rows d).

Lemma df_applymap_raises f d : raises_on f d → is_Err (df_applymap f d).
Proof.
  intros H. unfold df_applymap, map_cells.
  destruct (mapM_Exists_Err (row_applymap f) (rows d)) as [e ->]; [|by exists e].
  eapply Exists_impl; [exact H|]. intros r Hr. unfold row_applymap.
  destruct (mapM_Exists_Err f r.2 Hr) as [e ->]. by exists e.
Qed.

(** X5: a function that raises on a cell.  [applymap] returns a wrapper
    all the same and runs no job, whatever the function does; when the
    function raises on a cell of a block, [collect] on that wrapper raises,
    under every schedule, and there is no partial result. *)
Theorem applymap_raising_function (sched : schedule) (σ : state) (self : ref)
        (rdd : RDD) (parts : list (list pyobj)) (blocks : list DataFrame)
        (f : cell → result cell) :
  wraps σ self rdd →
  compute rdd = Ok parts →
  concat parts = PyFrame <$> blocks →
  Exists (raises_on f) blocks →
  ∃ p σ', applymap self f ∅ σ = (Ok p, σ') ∧
          jobs σ' = jobs σ ∧
          is_Err (collect sched p σ').1.
Proof.
  intros Hw Hparts Hblocks Hraise.
  eexists _, _. split; [apply (applymap_eq _ _ _ _ _ _ Hw (map_no_kwargs _ _))|].
  split; [reflexivity|].
  rewrite (collect_eq _ _ _ _ (constructed_wraps _ σ)). simpl.
  apply (reduce_mapped_Err _ _ _ parts); [assumption|].
  rewrite Hblocks. apply mapM_Exists_Err, Exists_fmap.
  eapply Exists_impl; [exact Hraise|]. intros d Hd. simpl.
  destruct (df_applymap_raises f d Hd) as [e ->]. by exists e.
Qed.

(** The function of the documentation of [applymap], ["panda" + x], which
    raises on a cell that is not a string. *)
Definition addpandasfunc (x : cell) : result cell :=
  match x with
  | CStr s => Ok (CStr (String.append "panda" s))
  | _ => Err TypeError
  end.

Lemma applymap_raising_function_witness :
  ∃ p σ', applymap first_ref addpandasfunc ∅ (constructed scenario_rows (mkState ∅ 0)) =
            (Ok p, σ') ∧
          jobs σ' = jobs (constructed scenario_rows (mkState ∅ 0)) ∧
          is_Err (collect in_order p σ').1.
Proof.
  apply (applymap_raising_function in_order _ first_ref scenario_rows
           [[one_row "magic" 10]; [one_row "ninja" 20; one_row "coffee" 30]]
           [mkFrame ["a"; "b"] [(0, [CStr "magic"; CInt 10])];
            mkFrame ["a"; "b"] [(0, [CStr "ninja"; CInt 20])];
            mkFrame ["a"; "b"] [(0, [CStr "coffee"; CInt 30])]]
           addpandasfunc).
  - apply (constructed_wraps scenario_rows (mkState ∅ 0)).
  - reflexivity.
  - reflexivity.
  - apply Exists_cons_hd, Exists_cons_hd, Exists_cons_tl, Exists_cons_hd.
    by exists TypeError.
Defined.


(** ** Chains of transformations *)

Lemma compute_mapped_Ok rdd parts g b elems :
  compute rdd = Ok parts →
  mapM g (concat parts) = Ok elems →
  ∃ parts', compute (PipelinedRDD rdd (mapM g) b) = Ok parts' ∧
            concat parts' = elems.
Proof.
  intros Hparts Helems. simpl. rewrite Hparts. simpl.
  rewrite <- mapM_concat in Helems.
  destruct (mapM (mapM g) parts) as [parts'|]; [|discriminate].
  injection Helems as <-. by exists parts'.
Qed.

Definition select_applymap_collect (sched : schedule) (self : ref) (key : string)
           (f : cell → result cell) : M pyobj :=
  p ← __getitem__ self key; q ← applymap p f ∅; collect sched q.

(** X6: [applymap] does not apply to a selected column.  On a collection
    of frames with distinct labels that all have the column [key],
    [prdd[key].applymap(f)] is built without error, and [collect] on it
    raises under every schedule, whatever [f]: the elements are series,
    which have no [applymap] ([AttributeError], as soon as there is a
    block). *)
Theorem applymap_after_getitem_raises (sched : schedule) (σ : state) (self : ref)
        (rdd : RDD) (parts : list (list pyobj)) (blocks : list DataFrame)
        (key : string) (f : cell → result cell) :
  wraps σ self rdd →
  compute rdd = Ok parts →
  concat parts = PyFrame <$> blocks →
  Forall distinct_labels blocks →
  Forall (λ d, key ∈ columns d) blocks →
  is_Err (select_applymap_collect sched self key f σ).1 ∧
  (blocks ≠ [] → (select_applymap_collect sched self key f σ).1 = Err AttributeError).
Proof.
  intros Hw Hparts Hblocks Hnd Hkey.
  pose proof (mapM_getitem_frames key blocks Hnd Hkey) as Helems.
  rewrite <- Hblocks in Helems.
  destruct (compute_mapped_Ok rdd parts (py_getitem key) false _ Hparts Helems)
    as (parts1 & Hparts1 & Hconcat1).
  assert (Hrun : (select_applymap_collect sched self key f σ).1 =
                 reduce sched appendFrames
                   (PipelinedRDD (PipelinedRDD rdd (mapM (py_getitem key)) false)
                                 (mapM (py_applymap f)) false)).
  { unfold select_applymap_collect, mbind, M_bind.
    rewrite (getitem_eq _ _ _ _ Hw).
    rewrite (applymap_eq _ _ _ _ _ _ (constructed_wraps _ σ) (map_no_kwargs _ _)).
    by rewrite (collect_eq _ _ _ _ (constructed_wraps _ _)). }
  rewrite Hrun. destruct blocks as [|d blocks].
  - split; [|done].
    rewrite (reduce_mapped_Ok _ _ _ parts1 _ _ [] Hparts1) by (by rewrite Hconcat1).
    rewrite combine_nil. by eexists.
  - assert (Herr : reduce sched appendFrames
                     (PipelinedRDD (PipelinedRDD rdd (mapM (py_getitem key)) false)
                                   (mapM (py_applymap f)) false) = Err AttributeError).
    { apply (reduce_mapped_Err_eq _ _ _ parts1); [assumption|]. by rewrite Hconcat1. }
    rewrite Herr. split; [by eexists|done].
Qed.

Lemma applymap_after_getitem_raises_witness :
  (select_applymap_collect in_order first_ref "thing" Ok
     (constructed tea_water (mkState ∅ 0))).1 = Err AttributeError.
Proof.
  apply (applymap_after_getitem_raises in_order _ first_ref tea_water
           [[PyFrame tea]; [PyFrame water]] [tea; water] "thing" Ok).
  - apply (constructed_wraps tea_water (mkState ∅ 0)).
  - reflexivity.
  - reflexivity.
  - repeat constructor; compute_done.
  - repeat constructor; compute_done.
  - discriminate.
Defined.

(** Two computations that both raise or return the same value. *)
Lemma agree_eq_refl {A} (x : result A) : agree eq x x.
Proof. by destruct x. Qed.

Lemma mapM_bind_agree {A B C} (F : A → result B) (G : B → result C)
      (H : A → result C) (l : list A) :
  (∀ x, x ∈ l → agree eq (F x ≫= G) (H x)) →
  agree eq (mapM F l ≫= mapM G) (mapM H l).
Proof.
  induction l as [|x l IH]; intros Hl; [done|].
  rewrite !mapM_cons. pose proof (Hl x ltac:(left)) as Hx.
  assert (IH' : agree eq (mapM F l ≫= mapM G) (mapM H l))
    by (apply IH; intros y Hy; apply Hl; by right).
  destruct (F x) as [y|] eqn:HF; simpl in *.
  - destruct (mapM F l) as [k|] eqn:HFl; simpl in *.
    + destruct (G y) as [z|], (H x) as [z'|]; simpl in *; try done.
      subst z'. destruct (mapM G k), (mapM H l); simpl in *; try done.
      by subst.
    + destruct (H x); simpl; [|done]. by destruct (mapM H l).
  - by destruct (H x).
Qed.

Lemma row_applymap_fuse f g (r : row) :
  agree eq (row_applymap f r ≫= row_applymap g) (row_applymap (λ c, f c ≫= g) r).
Proof.
  pose proof (mapM_bind_agree f g (λ c, f c ≫= g) r.2 (λ c _, agree_eq_refl _)) as H.
  unfold row_applymap.
  destruct (mapM f r.2) as [cs|]; simpl in *.
  - destruct (mapM g cs), (mapM _ r.2); simpl in *; try done. by subst.
  - by destruct (mapM _ r.2).
Qed.

Lemma map_cells_fuse f g (d : DataFrame) :
  agree eq (map_cells f d ≫= map_cells g) (map_cells (λ c, f c ≫= g) d).
Proof.
  pose proof (mapM_bind_agree (row_applymap f) (row_applymap g)
                (row_applymap (λ c, f c ≫= g)) (rows d)
                (λ r _, row_applymap_fuse f g r)) as H.
  unfold map_cells.
  destruct (mapM (row_applymap f) (rows d)) as [rs|]; simpl in *.
  - destruct (mapM (row_applymap g) rs), (mapM _ (rows d)); simpl in *; try done.
    by subst.
  - by destruct (mapM _ (rows d)).
Qed.

(** On a frame of a schema, [applymap] returns the frame of the images
    of the cells, which is of the schema of the results. *)
Lemma map_cells_typed f τ τ' (d d' : DataFrame) :
  frame_typed τ d → maps_schema f τ τ' (columns d) → map_cells f d = Ok d' →
  frame_typed τ' d' ∧ columns d' = columns d.
Proof.
  intros Ht Hf Hd. unfold map_cells in Hd.
  destruct (mapM (row_applymap f) (rows d)) as [rs'|] eqn:Hrs; [|discriminate].
  injection Hd as <-. split; [|reflexivity]. unfold frame_typed. simpl.
  apply mapM_Ok_Forall2 in Hrs. apply Forall_forall. intros r' Hr'.
  apply list_elem_of_lookup_1 in Hr' as [j Hj].
  destruct (Forall2_lookup_r _ _ _ _ _ Hrs Hj) as (r & Hr & Hmap).
  apply (row_applymap_typed f τ τ' (columns d) r r'); [assumption| |assumption].
  apply (proj1 (Forall_forall _ _) Ht). by eapply list_elem_of_lookup_2.
Qed.

Lemma df_applymap_typed f τ τ' (d : DataFrame) :
  frame_typed τ d → maps_schema f τ τ' (columns d) →
  df_applymap f d = map_cells f d.
Proof.
  intros Ht Hf. unfold df_applymap.
  destruct (map_cells f d) as [d'|] eqn:Hd; [|reflexivity]. simpl.
  destruct (map_cells_typed f τ τ' d d' Ht Hf Hd) as [Ht' _].
  by rewrite (infer_types_typed τ').
Qed.

Lemma df_applymap_fuse f g τ τ' (d : DataFrame) :
  frame_typed τ d → maps_schema f τ τ' (columns d) →
  agree eq (df_applymap f d ≫= df_applymap g) (df_applymap (λ c, f c ≫= g) d).
Proof.
  intros Ht Hf. rewrite (df_applymap_typed f τ τ') by assumption.
  pose proof (map_cells_fuse f g d) as H.
  unfold df_applymap at 2. unfold df_applymap.
  destruct (map_cells f d) as [d'|]; simpl in *.
  - destruct (map_cells g d'), (map_cells _ d); simpl in *; try done. by subst.
  - by destruct (map_cells _ d).
Qed.

Lemma py_applymap_fuse f g τ τ' (d : DataFrame) :
  frame_typed τ d → maps_schema f τ τ' (columns d) →
  agree eq (py_applymap f (PyFrame d) ≫= py_applymap g)
           (py_applymap (λ c, f c ≫= g) (PyFrame d)).
Proof.
  intros Ht Hf. simpl.
  pose proof (df_applymap_fuse f g τ τ' d Ht Hf) as H.
  destruct (df_applymap f d) as [d'|]; simpl in *.
  - destruct (df_applymap g d'), (df_applymap _ d); simpl in *; try done. by subst.
  - by destruct (df_applymap _ d).
Qed.

Lemma reduce_agree sched f rdd1 rdd2 :
  agree eq (compute rdd1) (compute rdd2) →
  agree eq (reduce sched f rdd1) (reduce sched f rdd2).
Proof.
  unfold reduce. destruct (compute rdd1), (compute rdd2); simpl; try done.
  intros ->. apply agree_eq_refl.
Qed.

Definition applymap_twice_collect (sched : schedule) (self : ref)
           (f g : cell → result cell) : M pyobj :=
  p ← applymap self f ∅; q ← applymap p g ∅; collect sched q.

(** X7: two [applymap] in a row are one, where the first leaves the
    types of the columns settled.  On a collection of frames with cells
    of the types of a schema, when the results of [f] are of one type for
    each label, [prdd.applymap(f).applymap(g).collect()] and
    [prdd.applymap(lambda x: g(f(x))).collect()] both raise or return the
    same value (under the same schedule), whatever [g]. *)
Theorem applymap_fusion (sched : schedule) (σ : state) (self : ref) (rdd : RDD)
        (parts : list (list pyobj)) (blocks : list DataFrame)
        (τ τ' : string → ctype) (f g : cell → result cell) :
  wraps σ self rdd →
  compute rdd = Ok parts →
  concat parts = PyFrame <$> blocks →
  Forall (frame_typed τ) blocks →
  Forall (λ d, maps_schema f τ τ' (columns d)) blocks →
  agree eq (applymap_twice_collect sched self f g σ).1
           (applymap_then_collect sched self (λ c, f c ≫= g) ∅ σ).1.
Proof.
  intros Hw Hparts Hblocks Htyped Hf.
  unfold applymap_twice_collect, applymap_then_collect, mbind, M_bind.
  rewrite !(applymap_eq _ _ _ _ _ _ Hw (map_no_kwargs _ _)).
  rewrite (applymap_eq _ _ _ _ _ _ (constructed_wraps _ σ) (map_no_kwargs _ _)).
  rewrite !(collect_eq _ _ _ _ (constructed_wraps _ _)). simpl.
  apply reduce_agree. simpl. rewrite Hparts. simpl.
  apply mapM_bind_agree. intros p Hp. apply mapM_bind_agree. intros x Hx.
  assert (Hin : x ∈ concat parts).
  { apply list_elem_of_In, in_concat. exists p. by rewrite <- !list_elem_of_In. }
  rewrite Hblocks in Hin. apply list_elem_of_fmap in Hin as (d & -> & Hd).
  apply (py_applymap_fuse f g τ τ').
  - by apply (proj1 (Forall_forall _ _) Htyped).
  - by apply (proj1 (Forall_forall _ _) Hf).
Qed.

Lemma applymap_fusion_witness :
  let σ := constructed tea_water (mkState ∅ 0) in
  agree eq (applymap_twice_collect newest_first first_ref to_panda addpandasfunc σ).1
           (applymap_then_collect newest_first first_ref
              (λ c, to_panda c ≫= addpandasfunc) ∅ σ).1.
Proof.
  intros σ.
  apply (applymap_fusion newest_first σ first_ref tea_water
           [[PyFrame tea]; [PyFrame water]] [tea; water] (λ _, TText) (λ _, TText)).
  - apply (constructed_wraps tea_water (mkState ∅ 0)).
  - reflexivity.
  - reflexivity.
  - repeat constructor.
  - repeat constructor; intros c x y _ _ [= <-]; exact I.
Defined.


(** ** Wrappers stay valid *)

(** What the actions return for [self] is the same in two states. *)
Definition same_results (σ σ' : state) (self : ref) : Prop :=
  ∀ sched, (collect sched self σ').1 = (collect sched self σ).1 ∧
           ∀ columns, (stats sched self columns σ').1 = (stats sched self columns σ).1.

Lemma same_results_heap (σ σ' : state) (self : ref) :
  heap σ' !! self = heap σ !! self → same_results σ σ' self.
Proof.
  intros H sched. split; [|intros columns].
  - by rewrite !collect_fst, H.
  - by rewrite !stats_fst, H.
Qed.

(** X8: a wrapper stays what it was.  Whatever is called on whatever
    receiver ([applymap], [__getitem__], [collect], [stats], returning or
    raising), [collect] and [stats] on an instance that existed before the
    call return afterwards what they would have returned before. *)
Theorem wrappers_persist (σ : state) (self other : ref) :
  is_Some (heap σ !! self) →
  (∀ f kwargs, same_results σ (applymap other f kwargs σ).2 self) ∧
  (∀ key, same_results σ (__getitem__ other key σ).2 self) ∧
  (∀ sched, same_results σ (collect sched other σ).2 self) ∧
  (∀ sched columns, same_results σ (stats sched other columns σ).2 self).
Proof.
  intros Hself. split; [|split; [|split]].
  - intros f kwargs. apply same_results_heap.
    destruct (applymap_cases σ other f kwargs) as [[e ->]|(rdd & mapped & _ & _ & ->)];
      [reflexivity|by apply constructed_old].
  - intros key. apply same_results_heap.
    destruct (getitem_cases σ other key) as [->|(rdd & _ & ->)];
      [reflexivity|by apply constructed_old].
  - intros sched. apply same_results_heap. by rewrite collect_heap.
  - intros sched columns. apply same_results_heap. by rewrite stats_heap.
Qed.

Lemma wrappers_persist_witness :
  let σ := constructed tea_water (mkState ∅ 0) in
  same_results σ (__getitem__ first_ref "thing" σ).2 first_ref.
Proof.
  intros σ.
  destruct (wrappers_persist σ first_ref first_ref) as (_ & Hgetitem & _).
  - eapply wraps_is_Some. apply (constructed_wraps tea_water (mkState ∅ 0)).
  - apply Hgetitem.
Defined.

(** ** [stats] over no partition *)

(** X9: [stats] over a collection without partitions raises, whatever the
    columns and the schedule: no accumulator is built, and there is
    nothing to reduce. *)
Theorem stats_no_partition_raises (sched : schedule) (σ : state) (self : ref)
        (rdd : RDD) (columns : list string) :
  wraps σ self rdd →
  compute rdd = Ok [] →
  is_Err (stats sched self columns σ).1.
Proof.
  intros Hw Hparts. rewrite stats_fst. unfold wraps in Hw. rewrite Hw.
  rewrite (reduce_stats sched rdd [] columns [] Hparts eq_refl). by eexists.
Qed.

Lemma stats_no_partition_raises_witness :
  is_Err (stats in_order first_ref ["b"]
                (constructed (ParallelCollection []) (mkState ∅ 0))).1.
Proof.
  apply (stats_no_partition_raises in_order _ first_ref (ParallelCollection []) ["b"]).
  - apply (constructed_wraps (ParallelCollection []) (mkState ∅ 0)).
  - reflexivity.
Defined.

(** ** The keywords of [applymap] *)

(** X10: a keyword that [map] does not have.  [applymap] hands its
    keywords to [map]; with any keyword other than [preservesPartitioning]
    the call raises [TypeError] at once: no wrapper is made, no job is run
    and the state is as it was. *)
Theorem applymap_unknown_keyword (σ : state) (self : ref) (rdd : RDD)
        (f : cell → result cell) (kwargs : gmap string bool) :
  wraps σ self rdd →
  ¬ dom kwargs ⊆ ({[ "preservesPartitioning" ]} : gset string) →
  applymap self f kwargs σ = (Err TypeError, σ).
Proof.
  intros Hw Hkw. destruct (type_of_wraps _ _ _ Hw) as [c Hc].
  unfold applymap, mbind, M_bind, lift.
  rewrite Hc, (get_rdd_eq _ _ _ Hw). unfold map. by rewrite decide_False.
Qed.

Lemma applymap_unknown_keyword_witness :
  let σ := constructed tea_water (mkState ∅ 0) in
  applymap first_ref Ok {[ "numPartitions" := true ]} σ = (Err TypeError, σ).
Proof.
  intros σ.
  apply (applymap_unknown_keyword σ first_ref tea_water).
  - apply (constructed_wraps tea_water (mkState ∅ 0)).
  - rewrite dom_singleton_L. set_solver.
Defined.

(** ** The class of the wrappers returned *)

(** X11: the wrappers returned are instances of [PRDD] itself.
    [fromRDD] constructs [PRDD(rdd)] whatever class it is called on, and
    [applymap] and [__getitem__] go through it: called on an instance of a
    subclass they return an instance of [PRDD], not of the subclass. *)
Theorem transformations_return_PRDD (σ : state) (self : ref) (p : ref) :
  (∀ cls rdd, (fromRDD cls rdd σ).1 = Ok p →
              class_of <$> heap (fromRDD cls rdd σ).2 !! p = Some PRDD_class) ∧
  (∀ f kwargs, (applymap self f kwargs σ).1 = Ok p →
               class_of <$> heap (applymap self f kwargs σ).2 !! p = Some PRDD_class) ∧
  (∀ key, (__getitem__ self key σ).1 = Ok p →
          class_of <$> heap (__getitem__ self key σ).2 !! p = Some PRDD_class).
Proof.
  assert (Hnew : ∀ rdd q, Ok (fresh (dom (heap σ))) = Ok q →
                   class_of <$> heap (constructed rdd σ) !! q = Some PRDD_class).
  { intros rdd q [= <-]. unfold constructed. simpl. by rewrite lookup_insert_eq. }
  split; [|split].
  - intros cls rdd. unfold fromRDD. rewrite PRDD_eq. apply Hnew.
  - intros f kwargs.
    destruct (applymap_cases σ self f kwargs) as [[e ->]|(rdd & mapped & _ & _ & ->)];
      [discriminate|apply Hnew].
  - intros key.
    destruct (getitem_cases σ self key) as [->|(rdd & _ & ->)];
      [discriminate|apply Hnew].
Qed.

(** An instance of a subclass. *)
Lemma transformations_return_PRDD_witness :
  let σ := mkState {[ 1%positive := mkInstance (Subclass "MyPRDD") (Some tea_water) ]} 0 in
  class_of <$> heap σ !! 1%positive = Some (Subclass "MyPRDD") ∧
  ∃ p, (__getitem__ 1%positive "thing" σ).1 = Ok p ∧
       class_of <$> heap (__getitem__ 1%positive "thing" σ).2 !! p = Some PRDD_class.
Proof.
  intros σ. split; [reflexivity|].
  assert (Hw : wraps σ 1%positive tea_water) by reflexivity.
  exists (fresh (dom (heap σ))).
  assert (Hrun : (__getitem__ 1%positive "thing" σ).1 = Ok (fresh (dom (heap σ))))
    by (by rewrite (getitem_eq _ _ _ _ Hw)).
  split; [exact Hrun|].
  by apply (transformations_return_PRDD σ 1%positive (fresh (dom (heap σ)))).
Defined.


(** ** Selecting after mapping *)

Section simulation.
Import Spark.

Context {A : Type} (f : A → A → result A) (Rel : A → A → Prop).

(** [f] takes related operands to related results. *)
Hypothesis f_related :
  ∀ x x' y y', Rel x x' → Rel y y' →
               ∃ z z', f x y = Ok z ∧ f x' y' = Ok z' ∧ Rel z z'.

Lemma combine_related steps work work' :
  Forall2 Rel work work' →
  ∃ vals vals', combine f steps work = Ok vals ∧ combine f steps work' = Ok vals' ∧
                Forall2 Rel vals vals'.
Proof.
  revert work work'. induction steps as [|[i j] steps IH]; intros work work' Hrel.
  - by exists work, work'.
  - simpl. destruct (work !! i) as [x|] eqn:Hi.
    + destruct (Forall2_lookup_l _ _ _ _ _ Hrel Hi) as (x' & -> & Hx).
      destruct (work !! j) as [y|] eqn:Hj.
      * destruct (Forall2_lookup_l _ _ _ _ _ Hrel Hj) as (y' & -> & Hy).
        destruct (decide (i = j)); [by apply IH|].
        destruct (f_related x x' y y' Hx Hy) as (z & z' & -> & -> & Hz). simpl.
        apply IH. by apply Forall2_delete, Forall2_insert.
      * assert (work' !! j = None) as ->.
        { apply lookup_ge_None. rewrite <- (Forall2_length _ _ _ Hrel).
          by apply lookup_ge_None. }
        by apply IH.
    + assert (work' !! i = None) as ->.
      { apply lookup_ge_None. rewrite <- (Forall2_length _ _ _ Hrel).
        by apply lookup_ge_None. }
      by apply IH.
Qed.

Lemma foldl_related acc acc' vals vals' :
  Rel acc acc' → Forall2 Rel vals vals' →
  ∃ r r', foldl (λ acc x, a ← acc; f a x) (Ok acc) vals = Ok r ∧
          foldl (λ acc x, a ← acc; f a x) (Ok acc') vals' = Ok r' ∧ Rel r r'.
Proof.
  intros Hacc Hvals. revert acc acc' Hacc.
  induction Hvals as [|v v' vals vals' Hv _ IH]; intros acc acc' Hacc.
  - by exists acc, acc'.
  - simpl. destruct (f_related acc acc' v v' Hacc Hv) as (z & z' & -> & -> & Hz).
    by apply IH.
Qed.

Lemma combine_nonempty steps work vals :
  combine f steps work = Ok vals → work ≠ [] → vals ≠ [].
Proof.
  revert work. induction steps as [|[i j] steps IH]; intros work; simpl.
  - by intros [= <-].
  - destruct (work !! i) as [x|] eqn:Hi; [|apply IH].
    destruct (work !! j) as [y|] eqn:Hj; [|apply IH].
    destruct (decide (i = j)) as [|Hij]; [apply IH|].
    destruct (f x y) as [z|]; simpl; [|discriminate].
    intros Hvals _. apply (IH _ Hvals). intros Hnil.
    apply (f_equal length) in Hnil. rewrite length_delete in Hnil.
    + rewrite length_insert in Hnil. simpl in Hnil.
      apply lookup_lt_Some in Hi, Hj. lia.
    + rewrite list_lookup_insert_ne by done. by eexists.
Qed.

(** Reducing two lists of related values, under the same steps, returns
    related values. *)
Lemma schedule_related steps work work' :
  work ≠ [] → Forall2 Rel work work' →
  ∃ r r', (vals ← combine f steps work; reduce_list f vals) = Ok r ∧
          (vals ← combine f steps work'; reduce_list f vals) = Ok r' ∧ Rel r r'.
Proof.
  intros Hne Hrel.
  destruct (combine_related steps work work' Hrel) as (vals & vals' & Hc & Hc' & Hvals).
  pose proof (combine_nonempty _ _ _ Hc Hne) as Hne'.
  rewrite Hc, Hc'. simpl.
  destruct Hvals as [|v v' vals vals' Hv Hvals]; [done|].
  by apply foldl_related.
Qed.

End simulation.

(** [f] over the values of a series. *)
Definition map_values (f : cell → result cell) (vs : list (Z * cell))
  : result (list (Z * cell)) :=
  mapM (λ v : Z * cell, pair v.1 <$> f v.2) vs.

Lemma frame_column_typed τ (k : string) (d : DataFrame) :
  frame_typed τ d → k ∈ columns d → column_typed (τ k) k d.
Proof.
  intros Ht Hk. unfold column_typed, column_of. apply Forall_fmap.
  eapply Forall_impl; [exact Ht|]. intros r Hr. simpl. by apply cell_at_typed.
Qed.

Lemma column_of_map_cells f τ (d d' : DataFrame) (k : string) :
  frame_typed τ d → k ∈ columns d → map_cells f d = Ok d' →
  map_values f (column_of k d) = Ok (column_of k d').
Proof.
  intros Ht Hk Hd. unfold map_cells in Hd.
  destruct (mapM (row_applymap f) (rows d)) as [rs|] eqn:Hrs; [|discriminate].
  injection Hd as <-. unfold column_of, map_values, frame_typed in *. simpl.
  apply mapM_Ok_Forall2 in Hrs.
  induction Hrs as [|r r' rs rs' Hr _ IH]; [reflexivity|].
  inversion Ht as [|? ? Hrow Ht']; subst.
  rewrite !fmap_cons, mapM_cons, (IH Ht'). simpl.
  unfold row_applymap in Hr.
  destruct (mapM f r.2) as [cs|] eqn:Hcs; [|discriminate]. injection Hr as <-. simpl.
  by rewrite (cell_at_mapM f _ _ _ k Hcs Hk (row_typed_length τ _ _ Hrow)).
Qed.

(** A series of values of type [t'] and the series of values of type
    [t] of which they are the images under [f], both named [k]. *)
Definition mapped_series (f : cell → result cell) (t' t : ctype) (k : string)
           (x y : pyobj) : Prop :=
  ∃ s' s, x = PySeries s' ∧ y = PySeries s ∧
          name s' = Some k ∧ name s = Some k ∧
          Forall (λ v : Z * cell, has_type t' v.2) (values s') ∧
          Forall (λ v : Z * cell, has_type t v.2) (values s) ∧
          map_values f (values s) = Ok (values s').

Lemma append_mapped_series f t' t k (x x' y y' : pyobj) :
  mapped_series f t' t k x x' → mapped_series f t' t k y y' →
  ∃ z z', appendFrames x y = Ok z ∧ appendFrames x' y' = Ok z' ∧
          mapped_series f t' t k z z'.
Proof.
  intros (s1' & s1 & -> & -> & Hn1' & Hn1 & Ht1' & Ht1 & Hv1)
         (s2' & s2 & -> & -> & Hn2' & Hn2 & Ht2' & Ht2 & Hv2).
  eexists _, _. split; [reflexivity|]. split; [reflexivity|].
  eexists _, _. split; [reflexivity|]. split; [reflexivity|]. simpl.
  rewrite Hn1', Hn2', Hn1, Hn2, !decide_True by done.
  rewrite (append_values_typed t'), (append_values_typed t) by assumption.
  split; [reflexivity|]. split; [reflexivity|].
  split; [by apply Forall_app|]. split; [by apply Forall_app|].
  unfold map_values in *. by rewrite mapM_app, Hv1, Hv2.
Qed.

Lemma compute_Pipelined prev func b :
  compute (PipelinedRDD prev func b) = compute prev ≫= mapM func.
Proof. reflexivity. Qed.

Lemma compute_mapped rdd parts g b :
  compute rdd = Ok parts →
  match mapM g (concat parts) with
  | Ok elems => ∃ parts', compute (PipelinedRDD rdd (mapM g) b) = Ok parts' ∧
                          concat parts' = elems ∧
                          length <$> parts' = length <$> parts
  | Err e => compute (PipelinedRDD rdd (mapM g) b) = Err e
  end.
Proof.
  intros Hparts. rewrite compute_Pipelined, Hparts, <- mapM_concat. simpl.
  destruct (mapM (mapM g) parts) as [parts'|] eqn:H; simpl; [|reflexivity].
  exists parts'. split; [reflexivity|]. split; [reflexivity|].
  by apply mapM_mapM_lengths in H.
Qed.

Definition applymap_select_collect (sched : schedule) (self : ref)
           (f : cell → result cell) (key : string) : M pyobj :=
  p ← applymap self f ∅; q ← __getitem__ p key; collect sched q.

(** X12: selecting after mapping gives the mapped column.  On a
    collection of frames with distinct labels that all have the column
    [key], with cells of the types of a schema, when the results of [f]
    are of one type for each label and
    [prdd.applymap(f)[key].collect()] returns, it returns a series, and
    [prdd[key].collect()] returns (under the same schedule) a series of
    the same name whose values, under [f], are its values, in the same
    order. *)
Theorem getitem_after_applymap (sched : schedule) (σ : state) (self : ref)
        (rdd : RDD) (parts : list (list pyobj)) (blocks : list DataFrame)
        (τ τ' : string → ctype) (f : cell → result cell) (key : string) (x : pyobj) :
  wraps σ self rdd →
  compute rdd = Ok parts →
  concat parts = PyFrame <$> blocks →
  Forall distinct_labels blocks →
  Forall (λ d, key ∈ columns d) blocks →
  Forall (frame_typed τ) blocks →
  Forall (λ d, maps_schema f τ τ' (columns d)) blocks →
  (applymap_select_collect sched self f key σ).1 = Ok x →
  ∃ s' s, x = PySeries s' ∧
          (select_then_collect sched self key σ).1 = Ok (PySeries s) ∧
          name s' = name s ∧
          map_values f (values s) = Ok (values s').
Proof.
  intros Hw Hparts Hblocks Hnd Hkey Htyped Hf.
  assert (Hlhs : (applymap_select_collect sched self f key σ).1 =
                 reduce sched appendFrames
                   (PipelinedRDD (PipelinedRDD rdd (mapM (py_applymap f)) false)
                                 (mapM (py_getitem key)) false)).
  { unfold applymap_select_collect, mbind, M_bind.
    rewrite (applymap_eq _ _ _ _ _ _ Hw (map_no_kwargs _ _)).
    rewrite (getitem_eq _ _ _ _ (constructed_wraps _ σ)).
    by rewrite (collect_eq _ _ _ _ (constructed_wraps _ _)). }
  assert (Hrhs : (select_then_collect sched self key σ).1 =
                 (vals ← combine appendFrames (sched (length <$> parts))
                                 (PySeries <$> (column_series key <$> blocks));
                  reduce_list appendFrames vals)).
  { unfold select_then_collect, mbind, M_bind.
    rewrite (getitem_eq _ _ _ _ Hw).
    rewrite (collect_eq _ _ _ _ (constructed_wraps _ σ)). simpl.
    apply reduce_mapped_Ok; [assumption|].
    rewrite Hblocks. by apply mapM_getitem_frames. }
  rewrite Hlhs, Hrhs. clear Hlhs Hrhs.
  pose proof (compute_mapped rdd parts (py_applymap f) false Hparts) as Hinner.
  rewrite Hblocks, mapM_applymap_frames in Hinner.
  destruct (mapM (df_applymap f) blocks) as [blocks'|e] eqn:Hmapped; simpl in Hinner.
  - destruct Hinner as (parts1 & Hparts1 & Hconcat1 & Hsizes).
    change (compute (PipelinedRDD rdd (mapM (py_applymap f)) false) = Ok parts1)
      in Hparts1.
    apply mapM_Ok_Forall2 in Hmapped.
    assert (Hall : Forall2 (λ d d', distinct_labels d' ∧ key ∈ columns d' ∧
                                    mapped_series f (τ' key) (τ key) key
                                      (PySeries (column_series key d'))
                                      (PySeries (column_series key d)))
                           blocks blocks').
    { clear -Hmapped Hnd Hkey Htyped Hf.
      induction Hmapped as [|d d' ? ? Hd _ IH]; [constructor|].
      inversion Hnd; inversion Hkey; inversion Htyped; inversion Hf; subst.
      constructor; [|by apply IH].
      rewrite (df_applymap_typed f τ τ') in Hd by assumption.
      destruct (map_cells_typed f τ τ' d d') as [Ht' Hcols]; [assumption..|].
      unfold distinct_labels. rewrite Hcols. split; [assumption|]. split; [assumption|].
      eexists _, _. split; [reflexivity|]. split; [reflexivity|].
      split; [reflexivity|]. split; [reflexivity|]. simpl.
      split; [apply frame_column_typed; [assumption|by rewrite Hcols]|].
      split; [by apply frame_column_typed|].
      by apply (column_of_map_cells f τ). }
    assert (Hnd' : Forall distinct_labels blocks').
    { clear -Hall. induction Hall as [|? ? ? ? (? & _) _ IH]; by constructor. }
    assert (Hkey' : Forall (λ d, key ∈ columns d) blocks').
    { clear -Hall. induction Hall as [|? ? ? ? (_ & ? & _) _ IH]; by constructor. }
    rewrite (reduce_mapped_Ok _ _ _ parts1 _ _ _ Hparts1)
      by (rewrite Hconcat1; by apply mapM_getitem_frames).
    rewrite Hsizes.
    assert (Hrel : Forall2 (mapped_series f (τ' key) (τ key) key)
                     (PySeries <$> (column_series key <$> blocks'))
                     (PySeries <$> (column_series key <$> blocks))).
    { clear -Hall. induction Hall as [|? ? ? ? (_ & _ & ?) _ IH]; [constructor|].
      rewrite !fmap_cons. by constructor. }
    destruct blocks' as [|d' blocks'].
    { simpl. rewrite combine_nil. discriminate. }
    assert (Hne : PySeries <$> (column_series key <$> (d' :: blocks')) ≠ [])
      by discriminate.
    destruct (schedule_related appendFrames (mapped_series f (τ' key) (τ key) key)
                (append_mapped_series f (τ' key) (τ key) key)
                (sched (length <$> parts)) _ _ Hne Hrel)
      as (r & r' & -> & -> & (s' & s & -> & -> & Hn' & Hn & _ & _ & Hvals)).
    intros [= <-]. exists s', s. by rewrite Hn', Hn.
  - change (compute (PipelinedRDD rdd (mapM (py_applymap f)) false) = Err e) in Hinner.
    unfold reduce. rewrite compute_Pipelined, Hinner. discriminate.
Qed.

Lemma getitem_after_applymap_witness :
  let σ := constructed tea_water (mkState ∅ 0) in
  let happy_sad := mkSeries (Some "thing") [(0, CStr "happy"); (0, CStr "sad")] in
  let pandas := mkSeries (Some "thing") [(0, CStr "pandahappy"); (0, CStr "pandasad")] in
  (applymap_select_collect in_order first_ref addpandasfunc "thing" σ).1 =
    Ok (PySeries pandas) ∧
  ∃ s' s, PySeries pandas = PySeries s' ∧
          (select_then_collect in_order first_ref "thing" σ).1 = Ok (PySeries s) ∧
          name s' = name s ∧
          map_values addpandasfunc (values s) = Ok (values s').
Proof.
  intros σ happy_sad pandas.
  assert (Hw : wraps σ first_ref tea_water)
    by apply (constructed_wraps tea_water (mkState ∅ 0)).
  assert (Hrun : (applymap_select_collect in_order first_ref addpandasfunc "thing" σ).1 =
                 Ok (PySeries pandas)).
  { unfold applymap_select_collect, mbind, M_bind.
    rewrite (applymap_eq _ _ _ _ _ _ Hw (map_no_kwargs _ _)).
    rewrite (getitem_eq _ _ _ _ (constructed_wraps _ σ)).
    rewrite (collect_eq _ _ _ _ (constructed_wraps _ _)).
    vm_compute. reflexivity. }
  split; [exact Hrun|].
  apply (getitem_after_applymap in_order σ first_ref tea_water
           [[PyFrame tea]; [PyFrame water]] [tea; water] (λ _, TText) (λ _, TText)
           addpandasfunc "thing").
  - exact Hw.
  - reflexivity.
  - reflexivity.
  - repeat constructor; compute_done.
  - repeat constructor; compute_done.
  - repeat constructor.
  - repeat constructor; intros c [s| | |] y _ Hx [= <-]; exact I.
  - exact Hrun.
Defined.

(** ** The columns of what [collect] returns *)

Definition column_set (x : pyobj) : gset string :=
  match x with PyFrame d => list_to_set (columns d) | _ => ∅ end.

Lemma append_column_set (x y : pyobj) :
  is_distinct_frame x → is_distinct_frame y →
  ∃ z, appendFrames x y = Ok z ∧ is_distinct_frame z ∧
       column_set z = column_set x ∪ column_set y.
Proof.
  intros (a & -> & Ha) (b & -> & Hb).
  destruct (df_append_distinct a b Ha Hb) as (z & Hz & Hnd & Hin & _).
  exists (PyFrame z). unfold appendFrames. simpl. rewrite Hz.
  split; [reflexivity|]. split; [by exists z|].
  apply set_eq. intros c. rewrite elem_of_union, !elem_of_list_to_set. apply Hin.
Qed.

Lemma total_column_set (blocks : list DataFrame) (c : string) :
  c ∈ total column_set (∪) ∅ (PyFrame <$> blocks) ↔ ∃ d, d ∈ blocks ∧ c ∈ columns d.
Proof.
  induction blocks as [|d blocks IH]; simpl.
  - split; [set_solver|]. intros (d & Hd & _). by apply elem_of_nil in Hd.
  - rewrite elem_of_union, IH, elem_of_list_to_set. split.
    + intros [Hc|(d' & Hd' & Hc)]; [exists d; split; [left|done]|].
      exists d'. split; [by right|done].
    + intros (d' & [->|Hd']%elem_of_cons & Hc); [by left|]. right. by exists d'.
Qed.

(** X13: [collect] keeps every column and invents none.  Over a
    collection of at least one frame, all with distinct labels, whatever
    the columns of the frames and whatever the schedule, the frame
    returned has a column exactly when some block has it, and its labels
    are distinct. *)
Theorem collect_columns (sched : schedule) (σ : state) (self : ref) (rdd : RDD)
        (parts : list (list pyobj)) (blocks : list DataFrame) :
  wraps σ self rdd →
  compute rdd = Ok parts →
  concat parts = PyFrame <$> blocks →
  blocks ≠ [] →
  Forall distinct_labels blocks →
  ∃ d, (collect sched self σ).1 = Ok (PyFrame d) ∧
       distinct_labels d ∧
       ∀ c, c ∈ columns d ↔ ∃ b, b ∈ blocks ∧ c ∈ columns b.
Proof.
  intros Hw Hparts Hblocks Hne Hnd. rewrite (collect_eq _ _ _ _ Hw). simpl.
  rewrite (reduce_eq _ _ _ _ Hparts), Hblocks.
  assert (Hne' : PyFrame <$> blocks ≠ []) by (by destruct blocks).
  destruct (schedule_measure appendFrames is_distinct_frame column_set (∪) ∅ eq
              append_column_set (sched (length <$> parts)) _ Hne'
              (Forall_is_distinct_frame blocks Hnd))
    as (r & -> & (d & -> & Hd) & Hcols).
  exists d. split; [reflexivity|]. split; [assumption|]. intros c.
  rewrite <- total_column_set, <- Hcols. simpl. by rewrite elem_of_list_to_set.
Qed.

Lemma collect_columns_witness :
  ∃ d, (collect newest_first first_ref (constructed magic_thing (mkState ∅ 0))).1 =
         Ok (PyFrame d) ∧
       distinct_labels d ∧
       ∀ c, c ∈ columns d ↔ ∃ b, b ∈ [magic_only; thing_only] ∧ c ∈ columns b.
Proof.
  apply (collect_columns newest_first _ first_ref magic_thing
           [[PyFrame magic_only]; [PyFrame thing_only]] [magic_only; thing_only]).
  - apply (constructed_wraps magic_thing (mkState ∅ 0)).
  - reflexivity.
  - reflexivity.
  - discriminate.
  - repeat constructor; compute_done.
Defined.

(** ** Instances and handles *)

(** X14: wrapping a handle twice gives two instances.  Two calls of
    [fromRDD] on the same handle return different references, both to
    instances that hold the handle; [collect] returns the same for both. *)
Theorem fromRDD_twice (cls1 cls2 : pyclass) (rdd : RDD) (σ : state) :
  ∃ p1 σ1 p2 σ2,
    fromRDD cls1 rdd σ = (Ok p1, σ1) ∧
    fromRDD cls2 rdd σ1 = (Ok p2, σ2) ∧
    p1 ≠ p2 ∧
    wraps σ2 p1 rdd ∧ wraps σ2 p2 rdd ∧
    ∀ sched, (collect sched p1 σ2).1 = (collect sched p2 σ2).1.
Proof.
  eexists _, _, _, _. split; [apply PRDD_eq|]. split; [apply PRDD_eq|].
  pose proof (constructed_wraps rdd σ) as Hw1.
  pose proof (constructed_wraps rdd (constructed rdd σ)) as Hw2.
  assert (Hw1' : wraps (constructed rdd (constructed rdd σ)) (fresh (dom (heap σ))) rdd).
  { unfold wraps. rewrite constructed_old; [exact Hw1|]. by eapply wraps_is_Some. }
  split; [|split; [exact Hw1'|split; [exact Hw2|]]].
  - intros Heq. pose proof (fresh_ref (constructed rdd σ)) as Hfresh.
    rewrite <- Heq in Hfresh. apply wraps_is_Some in Hw1.
    rewrite Hfresh in Hw1. by destruct Hw1.
  - intros sched. by rewrite (collect_eq _ _ _ _ Hw1'), (collect_eq _ _ _ _ Hw2).
Qed.

(** ** Selecting and collecting, in either order *)





